(** * snmp_sim: the two IO.puts commenting scripts

    A shallow embedding of [comment_io_puts_final.py] (the strict-prefix
    variant, module [Final]) and [comment_io_puts_smart.py] (the
    contains-anywhere variant, module [Smart]), and the properties of
    their per-file transformation.

    Layout: Python's string primitives ([Py]), the fragment of [re] the
    scripts use ([Re]), a fuelled [while] loop, the two [process_file]
    bodies and their [main] drivers over a small file-system state, then
    the theorems.  What the scripts print is left out; the directory walk
    is an input of the drivers. *)

From Stdlib Require Import String Ascii ZArith NArith Arith Bool Lia List.
Import ListNotations.

Set Implicit Arguments.

(* ================================================================== *)
(** ** Python strings *)

Module Py.

(** A Python [str] is a sequence of Unicode code points. *)
Definition char := N.
Definition str := list char.

(** Text literals are written as Rocq strings and read as code points. *)
Fixpoint lit (s : string) : str :=
  match s with
  | EmptyString => []
  | String a s' => N_of_ascii a :: lit s'
  end.

Definition LF : char := 10%N.
Definition DQUOTE : char := 34%N.
Definition HASH : char := 35%N.
Definition LPAREN : char := 40%N.
Definition RPAREN : char := 41%N.

(** [str.isspace] on one code point, CPython's [Py_UNICODE_ISSPACE]; both
    [str.strip()] and the [\s] of [re] on a [str] pattern use it. *)
Definition isspace (c : char) : bool :=
  ((9 <=? c) && (c <=? 13) || (28 <=? c) && (c <=? 32)
   || (c =? 133) || (c =? 160) || (c =? 5760)
   || (8192 <=? c) && (c <=? 8202)
   || (c =? 8232) || (c =? 8233) || (c =? 8239) || (c =? 8287)
   || (c =? 12288))%N.

(** [s.lstrip()] *)
Fixpoint lstrip (s : str) : str :=
  match s with
  | [] => []
  | c :: t => if isspace c then lstrip t else s
  end.

(** [s.rstrip()] *)
Fixpoint rstrip (s : str) : str :=
  match s with
  | [] => []
  | c :: t =>
      match rstrip t with
      | [] => if isspace c then [] else [c]
      | t' => c :: t'
      end
  end.

(** [s.strip()] *)
Definition strip (s : str) : str := lstrip (rstrip s).

Fixpoint str_eqb (a b : str) : bool :=
  match a, b with
  | [], [] => true
  | x :: a', y :: b' => (x =? y)%N && str_eqb a' b'
  | _, _ => false
  end.

(** [s.startswith(p)] *)
Fixpoint startswith (p s : str) : bool :=
  match p with
  | [] => true
  | x :: p' =>
      match s with
      | [] => false
      | y :: s' => (x =? y)%N && startswith p' s'
      end
  end.

(** [sub in s] *)
Fixpoint contains (sub s : str) : bool :=
  startswith sub s ||
  match s with
  | [] => false
  | _ :: t => contains sub t
  end.

(** [s.count(sub)]: the number of non-overlapping occurrences, scanning
    from the left.  [skip] is the number of characters of the occurrence
    just counted that are still to be passed over. *)
Fixpoint count_from (sub : str) (skip : nat) (s : str) : nat :=
  match s with
  | [] => match skip with
          | O => if startswith sub s then 1 else 0
          | S _ => 0
          end
  | _ :: t =>
      match skip with
      | S k => count_from sub k t
      | O => if startswith sub s
             then S (count_from sub (List.length sub - 1) t)
             else count_from sub 0 t
      end
  end.

Definition count (sub s : str) : nat := count_from sub 0 s.

(** The text of a file as [f.readlines()] cuts it: every line keeps its
    terminator, the last line may have none. *)
Fixpoint readlines (s : str) : list str :=
  match s with
  | [] => []
  | c :: t =>
      if (c =? LF)%N then [c] :: readlines t
      else match readlines t with
           | [] => [[c]]
           | l :: ls => (c :: l) :: ls
           end
  end.

(** What [f.writelines(ls)] leaves in the file. *)
Definition writelines (ls : list str) : str := concat ls.

End Py.

(* ================================================================== *)
(** ** The fragment of Python's [re] that the scripts use *)

Module Re.
Import Py.

(** Patterns.  The scripts' patterns are built from the start anchor,
    literal characters, a greedy star over a one-character class ([\s*],
    [[^)]*]), one capturing group and concatenation. *)
Inductive regex : Type :=
| Empty
| Bol
| Chr (c : char)
| StarOf (p : char -> bool)
| Grp (r : regex)
| Seq (r1 r2 : regex).

(** A literal run of characters, such as [IO\.puts]. *)
Definition Text (s : str) : regex :=
  fold_right (fun c r => Seq (Chr c) r) Empty s.

Section Matcher.
Variable A : Type.

(** A greedy star: the longest run first, shorter runs on backtracking. *)
Fixpoint star (p : char -> bool) (k : nat -> str -> option A)
         (pos : nat) (s : str) : option A :=
  match s with
  | c :: t =>
      if p c
      then match star p k (S pos) t with
           | Some a => Some a
           | None => k pos s
           end
      else k pos s
  | [] => k pos s
  end.

(** The backtracking matcher, in continuation-passing style: [pos] is the
    offset of [s] in the subject, [g] the groups closed so far (groups do
    not nest in these patterns). *)
Fixpoint run (r : regex) (pos : nat) (s : str) (g : list str)
         (k : nat -> str -> list str -> option A) : option A :=
  match r with
  | Empty => k pos s g
  | Bol => if (pos =? 0)%nat then k pos s g else None
  | Chr c =>
      match s with
      | c' :: t => if (c =? c')%N then k (S pos) t g else None
      | [] => None
      end
  | StarOf p => star p (fun pos' s' => k pos' s' g) pos s
  | Grp r' =>
      run r' pos s g
          (fun pos' s' g' => k pos' s' (g' ++ [firstn (pos' - pos) s]))
  | Seq r1 r2 =>
      run r1 pos s g (fun pos' s' g' => run r2 pos' s' g' k)
  end.

End Matcher.

(** The match of [r] that starts at offset [pos]: its length and groups. *)
Definition match_at (r : regex) (pos : nat) (s : str)
  : option (nat * list str) :=
  run r pos s [] (fun pos' _ g => Some (pos' - pos, g)).

(** [re.match(r, s)], read as a truth value. *)
Definition re_match (r : regex) (s : str) : bool :=
  match match_at r 0 s with
  | Some _ => true
  | None => false
  end.

(** Replacement templates: literal text and group references [\n]. *)
Inductive piece : Type :=
| Lit (s : str)
| Ref (n : nat).

Definition expand (repl : list piece) (g : list str) : str :=
  concat (map (fun p => match p with
                        | Lit s => s
                        | Ref n => nth (n - 1) g []
                        end) repl).

(** [re.sub(r, repl, s)]: leftmost matches, left to right, without
    overlap.  [skip] counts the characters of the current match still to
    be dropped.  After an empty match the scan copies one character and
    moves on; in this fragment an empty first match is the only match at
    its position. *)
Fixpoint sub_from (r : regex) (repl : list piece) (pos skip : nat)
         (s : str) : str :=
  match skip with
  | S k =>
      match s with
      | [] => []
      | _ :: t => sub_from r repl (S pos) k t
      end
  | O =>
      match match_at r pos s with
      | Some (S n, g) =>
          expand repl g ++
          match s with
          | [] => []
          | _ :: t => sub_from r repl (S pos) n t
          end
      | Some (O, g) =>
          expand repl g ++
          match s with
          | [] => []
          | c :: t => c :: sub_from r repl (S pos) 0 t
          end
      | None =>
          match s with
          | [] => []
          | c :: t => c :: sub_from r repl (S pos) 0 t
          end
      end
  end.

Definition re_sub (r : regex) (repl : list piece) (s : str) : str :=
  sub_from r repl 0 0 s.

End Re.

Import Py Re.

(* ================================================================== *)
(** ** Loops and outcomes *)

(** The outcome of running a piece of Python: a value, an exception, or
    the loop bound of the model reached. *)
Inductive result (A : Type) : Type :=
| Ok (a : A)
| Raised
| OutOfFuel.
Arguments Raised {A}.
Arguments OutOfFuel {A}.

Section While.
Variable St : Type.
Variable cond : St -> bool.
Variable body : St -> result St.

(** [while cond: body], one unit of fuel for each test of the condition. *)
Fixpoint while (fuel : nat) (s : St) : result St :=
  match fuel with
  | O => OutOfFuel
  | S f =>
      if cond s
      then match body s with
           | Ok s' => while f s'
           | Raised => Raised
           | OutOfFuel => OutOfFuel
           end
      else Ok s
  end.

End While.

(** The text both scripts look for. *)
Definition TARGET : str := Eval cbv in lit "IO.puts".

(* ================================================================== *)
(** ** The file system the scripts run on *)

Definition path := str.

(** [files] is the text of each file as Python reads it (line ends
    already translated to line feeds), [written] the paths opened for
    writing, oldest first. *)
Record world : Type := World {
  files : path -> option str;
  written : list path
}.

Definition write (p : path) (content : str) (w : world) : world :=
  {| files := fun q => if str_eqb q p then Some content else files w q;
     written := written w ++ [p] |}.

(* ================================================================== *)
(** ** comment_io_puts_final.py: the strict-prefix variant *)

Module Final.

(** [r'^\s*IO\.puts\s*\('] *)
Definition START : regex :=
  Seq Bol (Seq (StarOf isspace)
          (Seq (Text TARGET) (Seq (StarOf isspace) (Chr LPAREN)))).

(** [re.match(r'^\s*IO\.puts\s*\(', line.strip())] *)
Definition is_start (line : str) : bool := re_match START (strip line).

(** ['# ' + line] *)
Definition comment (line : str) : str := HASH :: 32%N :: line.

(** The three-character string delimiter. *)
Definition TRIPLE : str := [DQUOTE; DQUOTE; DQUOTE].

(** [line.count('(') - line.count(')')] *)
Definition paren_delta (line : str) : Z :=
  Z.of_nat (count [LPAREN] line) - Z.of_nat (count [RPAREN] line).

(** [line.count(TRIPLE) % 2 == 1] *)
Definition odd_triple (line : str) : bool :=
  (count TRIPLE line mod 2 =? 1)%nat.

(** The local variables of [process_file] that the loops update.
    [paren_count] and [in_heredoc] are unbound in Python until the first
    statement start; they are read only afterwards. *)
Record locals : Type := Locals {
  i : nat;
  new_lines : list str;
  modified : bool;
  paren_count : Z;
  in_heredoc : bool
}.

Definition init : locals :=
  {| i := 0; new_lines := []; modified := false;
     paren_count := 0; in_heredoc := false |}.

Section Loops.
Variable lines : list str.

(** [i < len(lines) and (paren_count > 0 or in_heredoc)] *)
Definition span_cond (s : locals) : bool :=
  (i s <? length lines)%nat && ((0 <? paren_count s)%Z || in_heredoc s).

(** The body of the inner loop: one continuation line. *)
Definition span_body (s : locals) : result locals :=
  match nth_error lines (i s) with
  | None => Raised
  | Some line =>
      Ok {| i := S (i s);
            new_lines := new_lines s ++ [comment line];
            modified := modified s;
            paren_count := paren_count s + paren_delta line;
            in_heredoc :=
              if contains TRIPLE line
              then if odd_triple line
                   then negb (in_heredoc s)
                   else in_heredoc s
              else in_heredoc s |}
  end.

(** [i < len(lines)] *)
Definition scan_cond (s : locals) : bool := (i s <? length lines)%nat.

(** The body of the outer loop. *)
Definition scan_body (fuel : nat) (s : locals) : result locals :=
  match nth_error lines (i s) with
  | None => Raised
  | Some line =>
      if is_start line
      then while span_cond span_body fuel
             {| i := S (i s);
                new_lines := new_lines s ++ [comment line];
                modified := true;
                paren_count := paren_delta line;
                in_heredoc := contains TRIPLE line && odd_triple line |}
      else Ok {| i := S (i s);
                 new_lines := new_lines s ++ [line];
                 modified := modified s;
                 paren_count := paren_count s;
                 in_heredoc := in_heredoc s |}
  end.

Definition scan (fuel : nat) : result locals :=
  while scan_cond (scan_body fuel) fuel init.

End Loops.

(** *** The two loops as one pass

    Outside a span the outer loop looks at a line; inside a span the
    inner loop does.  Which loop is running is decided by the span
    condition alone, so the nested loops are a single left-to-right pass
    over the lines.  [scan_is_pass] below proves that [scan] computes it. *)

(** [paren_count > 0 or in_heredoc] *)
Definition span_open (s : locals) : bool :=
  (0 <? paren_count s)%Z || in_heredoc s.

Definition step (s : locals) (line : str) : locals :=
  if span_open s
  then {| i := S (i s);
          new_lines := new_lines s ++ [comment line];
          modified := modified s;
          paren_count := paren_count s + paren_delta line;
          in_heredoc :=
            if contains TRIPLE line
            then if odd_triple line
                 then negb (in_heredoc s)
                 else in_heredoc s
            else in_heredoc s |}
  else if is_start line
  then {| i := S (i s);
          new_lines := new_lines s ++ [comment line];
          modified := true;
          paren_count := paren_delta line;
          in_heredoc := contains TRIPLE line && odd_triple line |}
  else {| i := S (i s);
          new_lines := new_lines s ++ [line];
          modified := modified s;
          paren_count := paren_count s;
          in_heredoc := in_heredoc s |}.

Definition pass (lines : list str) (s : locals) : locals :=
  fold_left step lines s.

(** The locals right after a statement start [line] has been commented. *)
Definition started (s : locals) (line : str) : locals :=
  {| i := S (i s);
     new_lines := new_lines s ++ [comment line];
     modified := true;
     paren_count := paren_delta line;
     in_heredoc := contains TRIPLE line && odd_triple line |}.

(** The span that [start] opens is still open after [start] and after
    each of the lines [rest] that follow it. *)
Fixpoint stays_open (s : locals) (rest : list str) : bool :=
  span_open s &&
  match rest with
  | [] => true
  | line :: rest' => stays_open (step s line) rest'
  end.

(** The two loops of [process_file] on the lines read; each loop tests
    its condition at most [len(lines) + 1] times. *)
Definition process_lines (lines : list str) : result locals :=
  scan lines (S (length lines)).

(** [process_file(filepath)]: the world afterwards and what the call
    returns. *)
Definition process_file (filepath : path) (w : world)
  : world * result bool :=
  match files w filepath with
  | None => (w, Raised)
  | Some content =>
      match process_lines (readlines content) with
      | Ok s =>
          if modified s
          then (write filepath (writelines (new_lines s)) w, Ok true)
          else (w, Ok false)
      | Raised => (w, Raised)
      | OutOfFuel => (w, OutOfFuel)
      end
  end.

(** [filename.endswith(('.ex', '.exs'))] *)
Definition endswith (suffix s : str) : bool :=
  startswith (rev suffix) (rev s).

Definition is_elixir (filename : str) : bool :=
  endswith (lit ".ex") filename || endswith (lit ".exs") filename.

(** [os.path.join(dirpath, filename)] for a relative file name. *)
Definition join (dirpath filename : str) : path :=
  dirpath ++ 47%N :: filename.

(** The loops of [main] over what [os.walk] yields under [lib] and
    [test], as (directory, file name) pairs in the order visited. *)
Fixpoint main_loop (walk : list (str * str)) (processed_count : nat)
         (w : world) : world * result nat :=
  match walk with
  | [] => (w, Ok processed_count)
  | (dirpath, filename) :: rest =>
      if is_elixir filename
      then
        let filepath := join dirpath filename in
        match files w filepath with
        | None => (w, Raised)
        | Some content =>
            if contains TARGET content
            then match process_file filepath w with
                 | (w', Ok true) => main_loop rest (S processed_count) w'
                 | (w', Ok false) => main_loop rest processed_count w'
                 | (w', Raised) => (w', Raised)
                 | (w', OutOfFuel) => (w', OutOfFuel)
                 end
            else main_loop rest processed_count w
        end
      else main_loop rest processed_count w
  end.

Definition main (walk : list (str * str)) (w : world)
  : world * result nat :=
  main_loop walk 0 w.

End Final.

(* ================================================================== *)
(** ** comment_io_puts_smart.py: the contains-anywhere variant *)

Module Smart.

(** [r'^\s*IO\.puts'] *)
Definition STANDALONE : regex :=
  Seq Bol (Seq (StarOf isspace) (Text TARGET)).

(** [r'^(G)IO\.puts'], where the group [G] is [\s*] *)
Definition STANDALONE_G : regex :=
  Seq Bol (Seq (Grp (StarOf isspace)) (Text TARGET)).

(** [r'IO\.puts\([^)]*\)'] *)
Definition CALL : regex :=
  Seq (Text TARGET)
      (Seq (Chr LPAREN)
           (Seq (StarOf (fun c => negb (c =? RPAREN)%N)) (Chr RPAREN))).

(** [r'^(G)'], where the group [G] is [\s*] *)
Definition INDENT : regex := Seq Bol (Grp (StarOf isspace)).

(** [:ok], [# IO.puts] and [# ] *)
Definition NOOP : str := Eval cbv in lit ":ok".
Definition COMMENTED : str := Eval cbv in lit "# IO.puts".
Definition MARKER : str := Eval cbv in lit "# ".

(** What the body of the loop appends for [line]. *)
Definition transform_line (line : str) : str :=
  if contains TARGET line
  then
    if re_match STANDALONE line
    then re_sub STANDALONE_G [Ref 1; Lit COMMENTED] line
    else
      let modified_line := re_sub CALL [Lit NOOP] line in
      if contains TARGET modified_line
      then re_sub INDENT [Ref 1; Lit MARKER] modified_line
      else modified_line
  else line.

Record locals : Type := Locals {
  i : nat;
  modified_lines : list str
}.

Definition init : locals := {| i := 0; modified_lines := [] |}.

Section Loop.
Variable lines : list str.

(** [i < len(lines)] *)
Definition scan_cond (s : locals) : bool := (i s <? length lines)%nat.

Definition scan_body (s : locals) : result locals :=
  match nth_error lines (i s) with
  | None => Raised
  | Some line =>
      Ok {| i := S (i s);
            modified_lines := modified_lines s ++ [transform_line line] |}
  end.

Definition scan (fuel : nat) : result locals :=
  while scan_cond scan_body fuel init.

End Loop.

Definition process_lines (lines : list str) : result locals :=
  scan lines (S (length lines)).

(** [process_file(filepath)]: the file is written back in every case. *)
Definition process_file (filepath : path) (w : world)
  : world * result unit :=
  match files w filepath with
  | None => (w, Raised)
  | Some content =>
      match process_lines (readlines content) with
      | Ok s => (write filepath (writelines (modified_lines s)) w, Ok tt)
      | Raised => (w, Raised)
      | OutOfFuel => (w, OutOfFuel)
      end
  end.

(** The loops of [main] over the paths the four [glob] patterns yield. *)
Fixpoint main_loop (found : list path) (files_processed : nat)
         (w : world) : world * result nat :=
  match found with
  | [] => (w, Ok files_processed)
  | filepath :: rest =>
      match files w filepath with
      | None => (w, Raised)
      | Some content =>
          if contains TARGET content
          then match process_file filepath w with
               | (w', Ok _) => main_loop rest (S files_processed) w'
               | (w', Raised) => (w', Raised)
               | (w', OutOfFuel) => (w', OutOfFuel)
               end
          else main_loop rest files_processed w
      end
  end.

Definition main (found : list path) (w : world) : world * result nat :=
  main_loop found 0 w.

End Smart.


(* ================================================================== *)
(** ** Documents used in the statements below *)

Module Doc.

(** A double-quoted string literal of the processed source. *)
Definition quoted (s : string) : str := DQUOTE :: lit s ++ [DQUOTE].

(** The line terminators a line read by [readlines] can end with: a line
    feed, or nothing on the last line of a file. *)
Definition terminator (eol : str) : Prop := eol = [] \/ eol = [LF].

(** A balanced call on one indented line, what the strict-prefix variant
    makes of it, and the same call commented after its indentation. *)
Definition hello : str :=
  lit "  IO.puts(" ++ quoted "hello" ++ lit ")".
Definition hello_commented : str :=
  lit "#   IO.puts(" ++ quoted "hello" ++ lit ")".
Definition hello_indented : str :=
  lit "  # IO.puts(" ++ quoted "hello" ++ lit ")".

(** A call whose argument is a triple-quoted block of two lines. *)
Definition heredoc (eol : str) : list str :=
  [ lit "IO.puts(" ++ Final.TRIPLE ++ [LF];
    lit "multi" ++ [LF];
    lit "line" ++ [LF];
    Final.TRIPLE ++ lit ")" ++ eol ].

(** A call spread over three lines. *)
Definition spread : list str :=
  [ lit "IO.puts(" ++ [LF];
    lit "  " ++ quoted "hello" ++ [LF];
    lit ")" ++ [LF] ].

(** A call in a branch arm, and the arm with the call replaced. *)
Definition branch : str := lit "  x -> IO.puts(" ++ quoted "y" ++ lit ")".
Definition branch_ok : str := lit "  x -> :ok".

(** A call with a space before its parenthesis. *)
Definition spaced : str := lit "IO.puts (" ++ quoted "x" ++ lit ")".

(** A call at the start of a line, commented once and processed again. *)
Definition plain : str := lit "IO.puts(" ++ quoted "a" ++ lit ")" ++ [LF].
Definition plain_once : str :=
  lit "# IO.puts(" ++ quoted "a" ++ lit ")" ++ [LF].
Definition plain_twice : str := lit "# :ok" ++ [LF].

(** An unterminated call: the parenthesis is never closed. *)
Definition unterminated : list str :=
  [ lit "IO.puts(" ++ [LF]; lit "  1," ++ [LF]; lit "  2" ++ [LF] ].

(** Two source files, one with a call and one without, as the walk of
    [lib] finds them. *)
Definition lib_a : path := lit "lib/a.ex".
Definition lib_b : path := lit "lib/b.ex".
Definition no_call : str := lit "x = 1" ++ [LF].
Definition disk : world :=
  {| files := fun q =>
       if str_eqb q lib_a then Some plain
       else if str_eqb q lib_b then Some no_call
       else None;
     written := [] |}.
Definition walked : list (str * str) :=
  [ (lit "lib", lit "a.ex"); (lit "lib", lit "b.ex") ].

End Doc.

(* ================================================================== *)
(** ** The shape of the lines of a file *)

Module Shape.

(** Text without a line feed. *)
Definition no_lf (s : str) : bool :=
  forallb (fun c => negb (c =? LF)%N) s.

(** A line with its terminator: text without a line feed, then one. *)
Fixpoint full_line (l : str) : bool :=
  match l with
  | [] => false
  | c :: t =>
      match t with
      | [] => (c =? LF)%N
      | _ :: _ => negb (c =? LF)%N && full_line t
      end
  end.

(** A last line without terminator: not empty, no line feed. *)
Definition open_line (l : str) : bool :=
  match l with
  | [] => false
  | _ :: _ => no_lf l
  end.

(** Lines as [readlines] cuts them: full lines, the last one possibly
    without its terminator. *)
Fixpoint file_lines (ls : list str) : bool :=
  match ls with
  | [] => true
  | l :: t =>
      match t with
      | [] => full_line l || open_line l
      | _ :: _ => full_line l && file_lines t
      end
  end.

End Shape.

(* ================================================================== *)
(** ** A source tree used in the statements below *)

Module Site.

(** An Elixir file with a call, a text file with the same call, and a
    test script with a call in a branch arm. *)
Definition a_ex : path := lit "lib/a.ex".
Definition notes_txt : path := lit "lib/notes.txt".
Definition t_exs : path := lit "test/t.exs".
Definition gone_ex : path := lit "lib/gone.ex".

Definition tree : world :=
  {| files := fun q =>
       if str_eqb q a_ex then Some Doc.plain
       else if str_eqb q notes_txt then Some Doc.plain
       else if str_eqb q t_exs then Some (Doc.branch ++ [LF])
       else None;
     written := [] |}.

(** What [os.walk] yields for it. *)
Definition walk : list (str * str) :=
  [ (lit "lib", lit "a.ex"); (lit "lib", lit "notes.txt");
    (lit "test", lit "t.exs") ].

(** What the [glob] patterns yield for it. *)
Definition found : list path := [a_ex; t_exs].

End Site.

(* ================================================================== *)
(** ** Facts about loops *)

Section WhileFacts.
Variable St : Type.
Variable cond : St -> bool.
Variable body : St -> result St.

(** A measure that every iteration does not decrease is not decreased by
    the loop. *)
Lemma while_measure_le (m : St -> nat) :
  (forall s s', cond s = true -> body s = Ok s' -> m s <= m s') ->
  forall fuel s s', while cond body fuel s = Ok s' -> m s <= m s'.
Proof.
  intros Hstep fuel. induction fuel as [|f IH]; intros s s' H.
  - discriminate.
  - simpl in H. destruct (cond s) eqn:Hc.
    + destruct (body s) as [s1| |] eqn:Hb; try discriminate.
      specialize (Hstep _ _ Hc Hb). specialize (IH _ _ H). lia.
    + injection H as <-. lia.
Qed.

End WhileFacts.

(* ================================================================== *)
(** ** The strict-prefix loops compute the pass *)

Section FinalLoops.
Import Final.
Variable lines : list str.

Lemma pass_app (a b : list str) (s : locals) :
  pass (a ++ b) s = pass b (pass a s).
Proof. unfold pass. apply fold_left_app. Qed.

Lemma pass_index (ls : list str) (s : locals) :
  i (pass ls s) = i s + length ls.
Proof.
  revert s. induction ls as [|l t IH]; intros s; simpl.
  - lia.
  - change (fold_left step t (step s l)) with (pass t (step s l)).
    rewrite IH. unfold step.
    destruct (span_open s); [|destruct (is_start l)]; simpl; lia.
Qed.

Lemma step_open (l : str) (s : locals) :
  span_open s = true ->
  step s l =
  {| i := S (i s);
     new_lines := new_lines s ++ [comment l];
     modified := modified s;
     paren_count := paren_count s + paren_delta l;
     in_heredoc :=
       if contains TRIPLE l
       then if odd_triple l then negb (in_heredoc s) else in_heredoc s
       else in_heredoc s |}.
Proof. intros Ho. unfold step. rewrite Ho. reflexivity. Qed.

Lemma nth_error_middle (done rest : list str) (l : str) :
  nth_error (done ++ l :: rest) (length done) = Some l.
Proof.
  rewrite nth_error_app2 by lia. now rewrite Nat.sub_diag.
Qed.

Lemma span_loop (rest done : list str) (s : locals) (fuel : nat) :
  lines = done ++ rest -> i s = length done -> length rest < fuel ->
  exists n, n <= length rest /\
    while (span_cond lines) (span_body lines) fuel s
      = Ok (pass (firstn n rest) s) /\
    (n < length rest -> span_open (pass (firstn n rest) s) = false).
Proof.
  revert done s fuel.
  induction rest as [|l t IH]; intros done s fuel Hl Hi Hf.
  - exists 0. destruct fuel as [|f]; [simpl in Hf; lia|].
    split; [simpl; lia|]. split; [|simpl; lia].
    simpl. unfold span_cond.
    replace (i s <? length lines) with false; [reflexivity|].
    symmetry. apply Nat.ltb_ge. rewrite Hl, Hi, app_nil_r. lia.
  - destruct fuel as [|f]; [lia|]. simpl in Hf.
    destruct (span_open s) eqn:Ho.
    + destruct (IH (done ++ [l]) (step s l) f) as (n & Hn & Hw & Hc).
      * rewrite <- app_assoc. exact Hl.
      * rewrite length_app. simpl. unfold step. rewrite Ho. simpl. lia.
      * lia.
      * exists (S n). split; [simpl; lia|]. split.
        -- simpl. unfold span_cond.
           fold (span_open s). rewrite Ho, andb_true_r.
           replace (i s <? length lines) with true.
           2:{ symmetry. apply Nat.ltb_lt. rewrite Hl, Hi, length_app.
               simpl. lia. }
           unfold span_body. rewrite Hi, Hl, nth_error_middle.
           rewrite <- Hl, <- Hi.
           rewrite <- (@step_open l s Ho). exact Hw.
        -- intros Hlt. simpl. apply Hc. simpl in Hlt. lia.
    + exists 0. split; [lia|]. split; [|intros _; exact Ho].
      simpl. unfold span_cond. fold (span_open s).
      rewrite Ho, andb_false_r. reflexivity.
Qed.

Lemma scan_loop (fuel0 fuel : nat) (rest done : list str) (s : locals) :
  lines = done ++ rest -> i s = length done ->
  (rest <> [] -> span_open s = false) ->
  length rest < fuel -> length lines < fuel0 ->
  while (scan_cond lines) (scan_body lines fuel0) fuel s
    = Ok (pass rest s).
Proof.
  intros Hl Hi Hc Hf H0. revert rest done s Hl Hi Hc Hf.
  induction fuel as [|f IH]; intros rest done s Hl Hi Hc Hf; [lia|].
  destruct rest as [|l t].
  - simpl. unfold scan_cond.
    replace (i s <? length lines) with false; [reflexivity|].
    symmetry. apply Nat.ltb_ge. rewrite Hl, Hi, app_nil_r. lia.
  - simpl in Hf. specialize (Hc ltac:(discriminate)).
    simpl. unfold scan_cond.
    replace (i s <? length lines) with true.
    2:{ symmetry. apply Nat.ltb_lt. rewrite Hl, Hi, length_app.
        simpl. lia. }
    unfold scan_body. rewrite Hi, Hl, nth_error_middle.
    rewrite <- Hl, <- Hi.
    assert (Hlen : length lines = length done + S (length t))
      by (rewrite Hl, length_app; reflexivity).
    destruct (is_start l) eqn:Hs.
    + fold (started s l).
      destruct (span_loop t (done ++ [l]) (started s l) (fuel := fuel0))
        as (n & Hn & Hw & Hcl).
      * rewrite <- app_assoc. exact Hl.
      * rewrite length_app. simpl. lia.
      * lia.
      * rewrite Hw.
        rewrite (IH (skipn n t) (done ++ [l] ++ firstn n t)).
        -- rewrite <- pass_app, firstn_skipn.
           unfold step. rewrite Hc, Hs. reflexivity.
        -- rewrite <- app_assoc, <- app_assoc, firstn_skipn. exact Hl.
        -- rewrite pass_index, !length_app, length_firstn. simpl. lia.
        -- intros Hne. apply Hcl.
           destruct (Nat.lt_ge_cases n (length t)) as [Hlt|Hge]; [exact Hlt|].
           rewrite skipn_all2 in Hne by lia. contradiction.
        -- rewrite length_skipn. lia.
    + rewrite (IH t (done ++ [l])).
      * unfold step. rewrite Hc, Hs. reflexivity.
      * rewrite <- app_assoc. exact Hl.
      * rewrite length_app. simpl. lia.
      * intros _. exact Hc.
      * lia.
Qed.

End FinalLoops.

(** The nested loops of the strict-prefix [process_file] are the pass. *)
Lemma scan_is_pass (lines : list str) :
  Final.process_lines lines = Ok (Final.pass lines Final.init).
Proof.
  unfold Final.process_lines, Final.scan.
  apply scan_loop with (done := []); simpl; auto.
Qed.

(** The contains-anywhere loop maps [transform_line] over the lines. *)
Lemma smart_scan_loop (lines : list str) (fuel : nat) :
  forall (rest done : list str) (s : Smart.locals),
  lines = done ++ rest -> Smart.i s = length done -> length rest < fuel ->
  while (Smart.scan_cond lines) (Smart.scan_body lines) fuel s
    = Ok {| Smart.i := Smart.i s + length rest;
            Smart.modified_lines :=
              Smart.modified_lines s ++ map Smart.transform_line rest |}.
Proof.
  induction fuel as [|f IH]; intros rest done s Hl Hi Hf; [lia|].
  destruct rest as [|l t]; simpl; unfold Smart.scan_cond.
  - replace (Smart.i s <? length lines) with false.
    + rewrite Nat.add_0_r, app_nil_r. now destruct s.
    + symmetry. apply Nat.ltb_ge. rewrite Hl, Hi, app_nil_r. lia.
  - replace (Smart.i s <? length lines) with true.
    2:{ symmetry. apply Nat.ltb_lt. rewrite Hl, Hi, length_app.
        simpl. lia. }
    unfold Smart.scan_body.
    rewrite Hi, Hl, nth_error_middle, <- Hl, <- Hi.
    rewrite (IH t (done ++ [l])).
    + simpl. rewrite <- app_assoc. simpl. f_equal. f_equal. lia.
    + rewrite <- app_assoc. exact Hl.
    + rewrite length_app. simpl. lia.
    + simpl in Hf. lia.
Qed.

Lemma smart_scan_is_map (lines : list str) :
  Smart.process_lines lines
  = Ok {| Smart.i := length lines;
          Smart.modified_lines := map Smart.transform_line lines |}.
Proof.
  unfold Smart.process_lines, Smart.scan.
  rewrite (@smart_scan_loop lines (S (length lines)) lines [] Smart.init);
    simpl; auto.
Qed.

(* ================================================================== *)
(** ** Facts about strings *)

Section StringFacts.

Lemma N_eqb_isspace (c d : char) :
  isspace d = false -> isspace c = true -> (d =? c)%N = false.
Proof.
  intros Hd Hc. destruct (N.eqb_spec d c) as [->|]; [congruence|reflexivity].
Qed.

Lemma startswith_app (p r : str) : startswith p (p ++ r) = true.
Proof.
  induction p as [|x p IH]; simpl; [reflexivity|].
  now rewrite N.eqb_refl, IH.
Qed.

Lemma startswith_split (p s : str) :
  startswith p s = true -> s = p ++ skipn (length p) s.
Proof.
  revert s. induction p as [|x p IH]; intros s H; simpl in *.
  - reflexivity.
  - destruct s as [|y s]; [discriminate|].
    apply andb_true_iff in H as [Hx Hp].
    apply N.eqb_eq in Hx. subst y. simpl. f_equal. now apply IH.
Qed.

Lemma contains_cons (sub s : str) (c : char) :
  contains sub s = true -> contains sub (c :: s) = true.
Proof. intros H. simpl. rewrite H. apply orb_true_r. Qed.

Lemma contains_starts (sub s : str) :
  startswith sub s = true -> contains sub s = true.
Proof. intros H. destruct s; simpl in *; rewrite H; reflexivity. Qed.

Lemma contains_app_r (sub a b : str) :
  contains sub b = true -> contains sub (a ++ b) = true.
Proof.
  intros H. induction a as [|c a IH]; simpl; [exact H|].
  change (contains sub (c :: a ++ b) = true). now apply contains_cons.
Qed.

Lemma startswith_app_l (sub a b : str) :
  startswith sub a = true -> startswith sub (a ++ b) = true.
Proof.
  revert a. induction sub as [|x p IH]; intros a H; simpl in *.
  - reflexivity.
  - destruct a as [|y a]; [discriminate|]. simpl.
    apply andb_true_iff in H as [Hx Hp]. now rewrite Hx, IH.
Qed.

Lemma contains_app_l (sub a b : str) :
  contains sub a = true -> contains sub (a ++ b) = true.
Proof.
  induction a as [|c a IH]; intros H.
  - simpl in H. rewrite orb_false_r in H.
    apply contains_starts. now apply (startswith_app_l _ [] b).
  - simpl in H. apply orb_true_iff in H as [H|H].
    + apply contains_starts. now apply (startswith_app_l _ (c :: a) b).
    + simpl app. apply contains_cons. now apply IH.
Qed.

Lemma lstrip_split (s : str) :
  exists ws, s = ws ++ lstrip s /\ forallb isspace ws = true.
Proof.
  induction s as [|c t (ws & E & Hws)]; simpl.
  - now exists [].
  - destruct (isspace c) eqn:Hc.
    + exists (c :: ws). simpl. rewrite Hc, Hws. split; [congruence|easy].
    + now exists [].
Qed.

Lemma lstrip_head (s t : str) (c : char) :
  lstrip s = c :: t -> isspace c = false.
Proof.
  induction s as [|d s IH]; simpl; [discriminate|].
  destruct (isspace d) eqn:Hd; [exact IH|].
  intros E. injection E as <- _. exact Hd.
Qed.

Lemma lstrip_spaces_app (ws x : str) :
  forallb isspace ws = true -> lstrip (ws ++ x) = lstrip x.
Proof.
  induction ws as [|c ws IH]; simpl; [reflexivity|].
  intros H. apply andb_true_iff in H as [Hc Hws]. rewrite Hc. now apply IH.
Qed.

Lemma lstrip_fixed (s : str) : lstrip (lstrip s) = lstrip s.
Proof.
  destruct (lstrip s) as [|c t] eqn:E; [reflexivity|].
  simpl. now rewrite (@lstrip_head s t c E).
Qed.

Lemma lstrip_app_nonnil (x y : str) :
  lstrip x <> [] -> lstrip (x ++ y) = lstrip x ++ y.
Proof.
  induction x as [|c x IH]; simpl; [congruence|].
  destruct (isspace c); [exact IH|reflexivity].
Qed.

Lemma rstrip_split (s : str) :
  exists tail, s = rstrip s ++ tail /\ forallb isspace tail = true.
Proof.
  induction s as [|c t (tail & E & Ht)]; simpl.
  - now exists [].
  - destruct (rstrip t) as [|d r] eqn:Er.
    + destruct (isspace c) eqn:Hc.
      * exists (c :: t). simpl in E. subst tail.
        simpl. now rewrite Hc, Ht.
      * exists tail. simpl in *. now subst.
    + exists tail. split; [|exact Ht]. simpl. now rewrite E at 1.
Qed.

Lemma rstrip_cons_nonspace (c : char) (b : str) :
  isspace c = false -> rstrip (c :: b) = c :: rstrip b.
Proof. intros Hc. simpl. destruct (rstrip b); [now rewrite Hc|reflexivity]. Qed.

Lemma rstrip_app_cons (a b : str) (c : char) :
  isspace c = false -> rstrip (a ++ c :: b) = a ++ c :: rstrip b.
Proof.
  intros Hc. induction a as [|x a IH].
  - now apply rstrip_cons_nonspace.
  - simpl. simpl in IH. rewrite IH. now destruct a.
Qed.

End StringFacts.

(* ================================================================== *)
(** ** Facts about the matcher *)

#[local] Arguments N.eqb : simpl never.

Section MatcherFacts.
Variable A : Type.

(** When what follows a [\s*] cannot start with a space, the star takes
    all the leading spaces and never gives one back. *)
Lemma star_isspace_lstrip (k : nat -> str -> option A) :
  (forall pos c t, isspace c = true -> k pos (c :: t) = None) ->
  forall s pos, exists pos', star isspace k pos s = k pos' (lstrip s).
Proof.
  intros Hk s. induction s as [|c t IH]; intros pos; simpl.
  - now exists pos.
  - destruct (isspace c) eqn:Hc.
    + destruct (IH (S pos)) as [pos' E]. rewrite E.
      destruct (k pos' (lstrip t)) eqn:Ek.
      * now exists pos'.
      * rewrite (Hk pos c t Hc). exists pos'. now rewrite Ek.
    + now exists pos.
Qed.

(** A literal run matches exactly when the subject starts with it. *)
Lemma run_text (t : str) (g : list str)
      (k : nat -> str -> list str -> option A) :
  forall pos s,
  run (Text t) pos s g k
  = if startswith t s then k (length t + pos) (skipn (length t) s) g
    else None.
Proof.
  induction t as [|c t IH]; intros pos s; simpl.
  - reflexivity.
  - destruct s as [|d s]; [reflexivity|].
    destruct (N.eqb_spec c d) as [->|Hne]; simpl.
    + rewrite IH. now rewrite Nat.add_succ_r.
    + reflexivity.
Qed.

End MatcherFacts.

(** The start pattern of the strict-prefix variant, read off the subject:
    leading spaces, the target, spaces, an opening parenthesis. *)
Lemma start_match (s : str) :
  re_match Final.START s
  = startswith TARGET (lstrip s)
    && startswith [LPAREN] (lstrip (skipn 7 (lstrip s))).
Proof.
  unfold re_match, match_at, Final.START.
  cbn [run Nat.eqb].
  match goal with
  | |- context [star isspace ?k 0 s] =>
      destruct (@star_isspace_lstrip _ k) with (s := s) (pos := 0)
        as [pos1 E1]
  end.
  { intros pos c t Hc. rewrite run_text. simpl.
    now rewrite (@N_eqb_isspace c 73%N eq_refl Hc). }
  rewrite E1, run_text.
  destruct (startswith TARGET (lstrip s)); [|reflexivity].
  cbn [run andb]. change (length TARGET) with 7.
  match goal with
  | |- context [star isspace ?k ?p ?x] =>
      destruct (@star_isspace_lstrip _ k) with (s := x) (pos := p)
        as [pos2 E2]
  end.
  { intros pos c t Hc.
    now rewrite (@N_eqb_isspace c LPAREN eq_refl Hc). }
  rewrite E2.
  destruct (lstrip (skipn 7 (lstrip s))) as [|c r]; [reflexivity|].
  simpl. unfold LPAREN. destruct (40 =? c)%N; reflexivity.
Qed.

(** The strict-prefix detector in terms of the line with its leading
    whitespace removed. *)
Lemma is_start_spec (line : str) :
  Final.is_start line = true <->
  exists ws rest,
    lstrip line = TARGET ++ ws ++ LPAREN :: rest /\
    forallb isspace ws = true.
Proof.
  unfold Final.is_start, strip. rewrite start_match, lstrip_fixed.
  destruct (rstrip_split line) as (tail & Eline & Htail).
  split.
  - intros H. apply andb_true_iff in H as [HT HP].
    apply startswith_split in HT. change (length TARGET) with 7 in HT.
    destruct (lstrip_split (skipn 7 (lstrip (rstrip line))))
      as (ws & Ews & Hws).
    apply startswith_split in HP. simpl in HP.
    exists ws, (skipn 1 (lstrip (skipn 7 (lstrip (rstrip line)))) ++ tail).
    split; [|exact Hws].
    rewrite Eline at 1. rewrite lstrip_app_nonnil.
    + rewrite HT at 1. rewrite Ews at 1. rewrite HP at 1.
      rewrite <- !app_assoc. reflexivity.
    + rewrite HT. discriminate.
  - intros (ws & rest & E & Hws).
    destruct (lstrip_split line) as (ws0 & E0 & Hws0).
    rewrite E in E0.
    assert (Er : rstrip line
                 = (ws0 ++ TARGET ++ ws) ++ LPAREN :: rstrip rest).
    { rewrite E0 at 1.
      rewrite <- (@rstrip_app_cons (ws0 ++ TARGET ++ ws) rest LPAREN eq_refl).
      now rewrite <- !app_assoc. }
    rewrite Er, <- !app_assoc, (@lstrip_spaces_app ws0 _ Hws0).
    change (lstrip (TARGET ++ ws ++ LPAREN :: rstrip rest))
      with (TARGET ++ ws ++ LPAREN :: rstrip rest).
    rewrite startswith_app.
    change (skipn 7 (TARGET ++ ws ++ LPAREN :: rstrip rest))
      with (ws ++ LPAREN :: rstrip rest).
    rewrite (@lstrip_spaces_app ws _ Hws). reflexivity.
Qed.

(* ================================================================== *)
(** ** Facts about the strict-prefix pass *)

Section PassFacts.
Import Final.

(** A commented line is not a statement start. *)
Lemma comment_not_start (l : str) : is_start (comment l) = false.
Proof.
  unfold is_start, strip, comment.
  rewrite (@rstrip_cons_nonspace HASH (32%N :: l) eq_refl).
  rewrite start_match. reflexivity.
Qed.

(** A statement start contains the target text. *)
Lemma start_contains (l : str) :
  is_start l = true -> contains TARGET l = true.
Proof.
  intros H. apply is_start_spec in H as (ws & rest & E & _).
  destruct (lstrip_split l) as (ws0 & E0 & _).
  rewrite E0, E. apply contains_app_r, contains_starts, startswith_app.
Qed.

(** Every output line is its input line, as it was or commented. *)
Lemma pass_lines (ls : list str) :
  forall s, exists outs,
    new_lines (pass ls s) = new_lines s ++ outs /\
    Forall2 (fun l o => o = l \/ o = comment l) ls outs.
Proof.
  induction ls as [|l t IH]; intros s.
  - exists []. simpl. now rewrite app_nil_r.
  - destruct (IH (step s l)) as (outs & E & F).
    assert (Hs : exists o, new_lines (step s l) = new_lines s ++ [o]
                           /\ (o = l \/ o = comment l)).
    { unfold step.
      destruct (span_open s); [|destruct (is_start l)]; simpl; eauto. }
    destruct Hs as (o & Eo & Ho).
    exists (o :: outs). split; [|now constructor].
    change (pass (l :: t) s) with (pass t (step s l)).
    rewrite E, Eo, <- app_assoc. reflexivity.
Qed.

(** Lines that are no statement start pass through a closed scan. *)
Lemma pass_no_start (ls : list str) :
  forall s, span_open s = false ->
  Forall (fun l => is_start l = false) ls ->
  pass ls s = {| i := i s + length ls;
                 new_lines := new_lines s ++ ls;
                 modified := modified s;
                 paren_count := paren_count s;
                 in_heredoc := in_heredoc s |}.
Proof.
  induction ls as [|l t IH]; intros s Hc Hall.
  - simpl. rewrite Nat.add_0_r, app_nil_r. now destruct s.
  - inversion Hall as [|? ? Hl Ht]; subst.
    change (pass (l :: t) s) with (pass t (step s l)).
    assert (E : step s l
                = {| i := S (i s); new_lines := new_lines s ++ [l];
                     modified := modified s;
                     paren_count := paren_count s;
                     in_heredoc := in_heredoc s |})
      by (unfold step; now rewrite Hc, Hl).
    rewrite E, IH; [|exact Hc|exact Ht].
    simpl. rewrite <- app_assoc. simpl. f_equal. lia.
Qed.

(** The pass never emits a statement start. *)
Lemma pass_emits_no_start (ls : list str) :
  forall s, Forall (fun l => is_start l = false) (new_lines s) ->
  Forall (fun l => is_start l = false) (new_lines (pass ls s)).
Proof.
  induction ls as [|l t IH]; intros s H; [exact H|].
  change (pass (l :: t) s) with (pass t (step s l)).
  apply IH. unfold step.
  destruct (span_open s); [|destruct (is_start l) eqn:Hl]; simpl;
    apply Forall_app; (split; [exact H|]); constructor;
    auto using comment_not_start.
Qed.

(** The output depends on the span state only, not on what was emitted
    before. *)
Lemma pass_frame (ls : list str) :
  forall (s s' : locals) (pre : list str),
  paren_count s = paren_count s' -> in_heredoc s = in_heredoc s' ->
  new_lines s = pre ++ new_lines s' ->
  new_lines (pass ls s) = pre ++ new_lines (pass ls s').
Proof.
  induction ls as [|l t IH]; intros s s' pre Hp Hh Hn; [exact Hn|].
  change (pass (l :: t) s) with (pass t (step s l)).
  change (pass (l :: t) s') with (pass t (step s' l)).
  assert (Ho : span_open s = span_open s')
    by (unfold span_open; now rewrite Hp, Hh).
  apply IH; unfold step; rewrite Ho;
    destruct (span_open s'); [|destruct (is_start l)| |destruct (is_start l)
                              | |destruct (is_start l)];
    simpl; rewrite ?Hp, ?Hh, ?Hn, <- ?app_assoc; reflexivity.
Qed.

(** While the span stays open every line is commented. *)
Lemma pass_stays_open (rest : list str) :
  forall s, stays_open s rest = true ->
  pass rest s
  = {| i := i s + length rest;
       new_lines := new_lines s ++ map comment rest;
       modified := modified s;
       paren_count := paren_count (pass rest s);
       in_heredoc := in_heredoc (pass rest s) |}.
Proof.
  induction rest as [|l t IH]; intros s H.
  - simpl. rewrite Nat.add_0_r, app_nil_r. now destruct s.
  - simpl in H. apply andb_true_iff in H as [Ho Ht].
    change (pass (l :: t) s) with (pass t (step s l)).
    rewrite (IH _ Ht) at 1.
    rewrite (@step_open l s Ho) at 1 2 3. simpl.
    rewrite <- app_assoc. simpl. f_equal. lia.
Qed.

End PassFacts.

(* ================================================================== *)
(** ** Facts about files and the drivers *)

Section DriverFacts.

Lemma str_eqb_eq (a b : str) : str_eqb a b = true <-> a = b.
Proof.
  revert b. induction a as [|x a IH]; intros [|y b]; simpl;
    try (split; congruence).
  rewrite andb_true_iff, N.eqb_eq, IH. split.
  - intros [-> ->]. reflexivity.
  - intros E. injection E as -> ->. auto.
Qed.

Lemma str_eqb_refl (a : str) : str_eqb a a = true.
Proof. now apply str_eqb_eq. Qed.

Lemma str_eqb_neq (a b : str) : a <> b -> str_eqb a b = false.
Proof.
  intros H. destruct (str_eqb a b) eqn:E; [|reflexivity].
  apply str_eqb_eq in E. contradiction.
Qed.

Lemma written_write (p q : path) (content : str) (w : world) :
  In p (written (write q content w)) -> In p (written w) \/ p = q.
Proof.
  simpl. intros H. apply in_app_or in H as [H|[H|[]]]; auto.
Qed.

Lemma files_write_other (p q : path) (content : str) (w : world) :
  p <> q -> files (write q content w) p = files w p.
Proof. intros H. simpl. now rewrite str_eqb_neq. Qed.

Lemma concat_readlines (c : str) : concat (readlines c) = c.
Proof.
  induction c as [|x t IH]; simpl; [reflexivity|].
  destruct (x =? LF)%N.
  - simpl. now rewrite IH.
  - destruct (readlines t) as [|l ls]; simpl in *; now rewrite <- IH.
Qed.

(** Text found in a line is found in the file. *)
Lemma contains_concat (sub : str) (ls : list str) (l : str) :
  In l ls -> contains sub l = true -> contains sub (concat ls) = true.
Proof.
  induction ls as [|x ls IH]; simpl; [easy|].
  intros [->|H] Hl.
  - now apply contains_app_l.
  - now apply contains_app_r, IH.
Qed.

Lemma line_of_file (sub c l : str) :
  In l (readlines c) -> contains sub l = true -> contains sub c = true.
Proof.
  intros Hin Hl. rewrite <- (concat_readlines c).
  eapply contains_concat; eassumption.
Qed.

(** Text without a line feed that a file starts with is at the start of
    the file's first line. *)
Lemma startswith_first_line (sub : str) :
  sub <> [] -> ~ In LF sub ->
  forall c, startswith sub c = true ->
  exists l ls, readlines c = l :: ls /\ startswith sub l = true.
Proof.
  induction sub as [|x sub IH]; intros Hne Hlf c H; [congruence|].
  destruct c as [|y t]; [discriminate|]. simpl in H.
  apply andb_true_iff in H as [Hx Ht]. apply N.eqb_eq in Hx. subst y.
  assert (Hx : (x =? LF)%N = false).
  { apply N.eqb_neq. intros ->. apply Hlf. now left. }
  simpl. rewrite Hx.
  destruct sub as [|x' sub'].
  - destruct (readlines t) as [|l ls]; eexists; eexists;
      (split; [reflexivity|]); simpl; now rewrite N.eqb_refl.
  - destruct (IH ltac:(discriminate) ltac:(intros F; apply Hlf; now right)
                 t Ht) as (l & ls & E & Hl).
    rewrite E. exists (x :: l), ls. split; [reflexivity|].
    change (((x =? x)%N && startswith (x' :: sub') l) = true).
    now rewrite N.eqb_refl, Hl.
Qed.

(** Text without a line feed that occurs in a file occurs in one of its
    lines. *)
Lemma file_has_line (sub : str) :
  sub <> [] -> ~ In LF sub ->
  forall c, contains sub c = true ->
  exists l, In l (readlines c) /\ contains sub l = true.
Proof.
  intros Hne Hlf c. induction c as [|x t IH]; intros H.
  - simpl in H. rewrite orb_false_r in H.
    destruct sub; [congruence|discriminate].
  - cbn [contains] in H. apply orb_true_iff in H as [H|H].
    + destruct (@startswith_first_line sub Hne Hlf _ H) as (l & ls & E & Hl).
      exists l. rewrite E. split; [now left|now apply contains_starts].
    + destruct (IH H) as (l & Hin & Hl). simpl.
      destruct (x =? LF)%N.
      * exists l. split; [now right|exact Hl].
      * destruct (readlines t) as [|l0 ls]; [destruct Hin|].
        destruct Hin as [->|Hin].
        -- exists (x :: l). split; [now left|now apply contains_cons].
        -- exists l. split; [now right|exact Hl].
Qed.

Lemma target_line (c : str) :
  contains TARGET c = true ->
  exists l, In l (readlines c) /\ contains TARGET l = true.
Proof.
  apply file_has_line; [discriminate|].
  unfold TARGET, LF. simpl.
  intros H; repeat (destruct H as [H|H]; [discriminate|]); exact H.
Qed.

End DriverFacts.

Section FinalDriver.
Import Final.

Lemma modified_has_start (ls : list str) :
  forall s, modified (pass ls s) = true ->
  modified s = true \/ exists l, In l ls /\ is_start l = true.
Proof.
  induction ls as [|l t IH]; intros s H; [now left|].
  change (pass (l :: t) s) with (pass t (step s l)) in H.
  destruct (IH _ H) as [Hm|(l' & Hin & Hl')].
  - unfold step in Hm.
    destruct (span_open s); [now left|].
    destruct (is_start l) eqn:Hl; [|now left].
    right. exists l. split; [now left|exact Hl].
  - right. exists l'. split; [now right|exact Hl'].
Qed.

Lemma process_file_eq (p : path) (w : world) :
  process_file p w
  = match files w p with
    | None => (w, Raised)
    | Some c =>
        if modified (pass (readlines c) init)
        then (write p (writelines (new_lines (pass (readlines c) init))) w,
              Ok true)
        else (w, Ok false)
    end.
Proof.
  unfold process_file. destruct (files w p) as [c|]; [|reflexivity].
  now rewrite scan_is_pass.
Qed.

(** A file without the target text is neither changed nor written. *)
Lemma main_loop_untouched (p : path) (c : str) (walk : list (str * str)) :
  contains TARGET c = false ->
  forall n w, files w p = Some c ->
  files (fst (main_loop walk n w)) p = Some c /\
  (In p (written (fst (main_loop walk n w))) -> In p (written w)).
Proof.
  intros Hc. induction walk as [|[dirpath filename] rest IH];
    intros n w Hp; [now split|].
  simpl. destruct (is_elixir filename); [|now apply IH].
  destruct (files w (join dirpath filename)) as [content|] eqn:Ef;
    [|now split].
  destruct (contains TARGET content) eqn:Et; [|now apply IH].
  assert (Hne : p <> join dirpath filename) by congruence.
  rewrite process_file_eq, Ef.
  destruct (modified _); [|now apply IH].
  destruct (IH (S n) (write (join dirpath filename)
                  (writelines (new_lines (pass (readlines content) init))) w))
    as [Hf Hw].
  - now rewrite files_write_other.
  - split; [exact Hf|]. intros H.
    destruct (written_write _ _ _ _ (Hw H)) as [H'|H']; congruence.
Qed.

(** A file is written only if one of its lines is a statement start. *)
Lemma main_loop_written (p : path) (walk : list (str * str)) :
  forall n w, In p (written (fst (main_loop walk n w))) ->
  In p (written w) \/
  exists c l, files w p = Some c /\ In l (readlines c)
              /\ is_start l = true.
Proof.
  induction walk as [|[dirpath filename] rest IH]; intros n w H;
    [now left|].
  simpl in H. destruct (is_elixir filename); [|now apply IH in H].
  destruct (files w (join dirpath filename)) as [content|] eqn:Ef;
    [|now left].
  destruct (contains TARGET content) eqn:Et; [|now apply IH in H].
  rewrite process_file_eq, Ef in H.
  destruct (modified (pass (readlines content) init)) eqn:Em;
    [|now apply IH in H].
  assert (Hstart : exists l, In l (readlines content) /\ is_start l = true).
  { destruct (modified_has_start _ _ Em) as [F|F]; [discriminate|exact F]. }
  destruct (list_eq_dec N.eq_dec p (join dirpath filename)) as [->|Hne].
  - right. destruct Hstart as (l & Hin & Hl). now exists content, l.
  - apply IH in H as [H|(c & l & Hf & Hin & Hl)].
    + apply written_write in H as [H|H]; [now left|contradiction].
    + right. exists c, l. rewrite files_write_other in Hf by exact Hne.
      now split.
Qed.

End FinalDriver.

Section SmartDriver.
Import Smart.

Lemma transform_line_plain (l : str) :
  contains TARGET l = false -> transform_line l = l.
Proof. intros H. unfold transform_line. now rewrite H. Qed.

Lemma smart_process_file_eq (p : path) (w : world) :
  process_file p w
  = match files w p with
    | None => (w, Raised)
    | Some c =>
        (write p (writelines (map transform_line (readlines c))) w, Ok tt)
    end.
Proof.
  unfold process_file. destruct (files w p) as [c|]; [|reflexivity].
  now rewrite smart_scan_is_map.
Qed.

Lemma smart_main_loop_untouched (p : path) (c : str) (found : list path) :
  contains TARGET c = false ->
  forall n w, files w p = Some c ->
  files (fst (main_loop found n w)) p = Some c /\
  (In p (written (fst (main_loop found n w))) -> In p (written w)).
Proof.
  intros Hc. induction found as [|filepath rest IH];
    intros n w Hp; [now split|].
  simpl. destruct (files w filepath) as [content|] eqn:Ef; [|now split].
  destruct (contains TARGET content) eqn:Et; [|now apply IH].
  assert (Hne : p <> filepath) by congruence.
  rewrite smart_process_file_eq, Ef.
  destruct (IH (S n) (write filepath
                  (writelines (map transform_line (readlines content))) w))
    as [Hf Hw].
  - now rewrite files_write_other.
  - split; [exact Hf|]. intros H.
    destruct (written_write _ _ _ _ (Hw H)) as [H'|H']; congruence.
Qed.

Lemma smart_main_loop_written (p : path) (found : list path) :
  forall n w, In p (written (fst (main_loop found n w))) ->
  In p (written w) \/
  exists c l, files w p = Some c /\ In l (readlines c)
              /\ contains TARGET l = true.
Proof.
  induction found as [|filepath rest IH]; intros n w H; [now left|].
  simpl in H. destruct (files w filepath) as [content|] eqn:Ef;
    [|now left].
  destruct (contains TARGET content) eqn:Et; [|now apply IH in H].
  rewrite smart_process_file_eq, Ef in H.
  destruct (list_eq_dec N.eq_dec p filepath) as [->|Hne].
  - right. destruct (target_line _ Et) as (l & Hin & Hl).
    now exists content, l.
  - apply IH in H as [H|(c & l & Hf & Hin & Hl)].
    + apply written_write in H as [H|H]; [now left|contradiction].
    + right. exists c, l. rewrite files_write_other in Hf by exact Hne.
      now split.
Qed.

End SmartDriver.

(* ================================================================== *)
(** ** Facts about the contains-anywhere substitutions *)

Lemma lstrip_length (s : str) : length (lstrip s) <= length s.
Proof.
  induction s as [|c t IH]; simpl; [lia|].
  destruct (isspace c); simpl; lia.
Qed.

Lemma star_isspace_exact (A : Type) (k : nat -> str -> option A) :
  (forall pos c t, isspace c = true -> k pos (c :: t) = None) ->
  forall s pos,
  star isspace k pos s
  = k (pos + (length s - length (lstrip s))) (lstrip s).
Proof.
  intros Hk s. induction s as [|c t IH]; intros pos.
  - simpl. now rewrite Nat.add_0_r.
  - cbn [star lstrip]. destruct (isspace c) eqn:Hc.
    + rewrite IH. pose proof (lstrip_length t) as Hle.
      replace (pos + (length (c :: t) - length (lstrip t)))
        with (S pos + (length t - length (lstrip t)))
        by (cbn [length]; lia).
      destruct (k _ (lstrip t)); [reflexivity|]. now apply Hk.
    + now rewrite Nat.sub_diag, Nat.add_0_r.
Qed.

Lemma sub_from_anchored (r : regex) (repl : list piece) (s : str) :
  forall pos skip,
  sub_from (Seq Bol r) repl (S pos) skip s = skipn skip s.
Proof.
  induction s as [|c t IH]; intros pos [|k]; simpl; try reflexivity.
  - now rewrite IH.
  - apply IH.
Qed.

Lemma indent_split (l : str) :
  exists ws, l = ws ++ lstrip l /\ forallb isspace ws = true /\
             length l - length (lstrip l) = length ws.
Proof.
  destruct (lstrip_split l) as (ws & E & H). exists ws.
  split; [exact E|]. split; [exact H|].
  rewrite E at 1. rewrite length_app. lia.
Qed.

Lemma standalone_match (l : str) :
  re_match Smart.STANDALONE l = startswith TARGET (lstrip l).
Proof.
  unfold re_match, match_at, Smart.STANDALONE. cbn [run Nat.eqb].
  rewrite star_isspace_exact.
  - rewrite run_text. now destruct (startswith TARGET (lstrip l)).
  - intros pos c t Hc. rewrite run_text. simpl.
    now rewrite (@N_eqb_isspace c 73%N eq_refl Hc).
Qed.

(** The substitution that comments a standalone call puts the marker
    between the indentation and the call. *)
Lemma standalone_sub (ws rest : str) :
  forallb isspace ws = true ->
  re_sub Smart.STANDALONE_G [Ref 1; Lit Smart.COMMENTED]
         (ws ++ TARGET ++ rest)
  = ws ++ Smart.MARKER ++ TARGET ++ rest.
Proof.
  intros Hws.
  assert (Hl : lstrip (ws ++ TARGET ++ rest) = TARGET ++ rest)
    by now rewrite lstrip_spaces_app.
  assert (Hm : match_at Smart.STANDALONE_G 0 (ws ++ TARGET ++ rest)
               = Some (S (6 + length ws), [ws])).
  { unfold match_at, Smart.STANDALONE_G. cbn [run Nat.eqb].
    rewrite star_isspace_exact.
    - rewrite run_text, Hl, startswith_app.
      rewrite !length_app. cbn [app]. f_equal. f_equal.
      + change (length TARGET) with 7. simpl. lia.
      + f_equal. rewrite Nat.sub_0_r.
        replace (0 + _) with (length ws + 0)
          by (change (length TARGET) with 7; simpl; lia).
        now rewrite firstn_app_2, app_nil_r.
    - intros pos c t Hc. rewrite run_text. simpl.
      now rewrite (@N_eqb_isspace c 73%N eq_refl Hc). }
  unfold re_sub. 
  destruct (ws ++ TARGET ++ rest) as [|c t] eqn:E.
  { destruct ws; discriminate. }
  cbn [sub_from]. rewrite Hm. unfold Smart.STANDALONE_G.
  rewrite sub_from_anchored.
  assert (Et : skipn (6 + length ws) t = rest).
  { change (skipn (6 + length ws) t)
      with (skipn (S (6 + length ws)) (c :: t)).
    rewrite <- E.
    replace (S (6 + length ws)) with (length ws + 7) by lia.
    rewrite skipn_app, skipn_all2 by lia.
    replace (length ws + 7 - length ws) with 7 by lia. reflexivity. }
  rewrite Et. unfold expand. simpl. now rewrite <- app_assoc.
Qed.

Lemma star_isspace_total (A : Type) (k : nat -> str -> option A) :
  (forall pos s, k pos s <> None) ->
  forall s pos,
  star isspace k pos s
  = k (pos + (length s - length (lstrip s))) (lstrip s).
Proof.
  intros Hk s. induction s as [|c t IH]; intros pos.
  - simpl. now rewrite Nat.add_0_r.
  - cbn [star lstrip]. destruct (isspace c) eqn:Hc.
    + rewrite IH. pose proof (lstrip_length t) as Hle.
      replace (pos + (length (c :: t) - length (lstrip t)))
        with (S pos + (length t - length (lstrip t)))
        by (cbn [length]; lia).
      destruct (k _ (lstrip t)) eqn:E; [reflexivity|].
      now apply Hk in E.
    + now rewrite Nat.sub_diag, Nat.add_0_r.
Qed.

(** The substitution that comments a whole line puts the marker after
    the indentation. *)
Lemma indent_sub (ws body : str) :
  forallb isspace ws = true -> lstrip body = body ->
  re_sub Smart.INDENT [Ref 1; Lit Smart.MARKER] (ws ++ body)
  = ws ++ Smart.MARKER ++ body.
Proof.
  intros Hws Hbody.
  assert (Hl : lstrip (ws ++ body) = body)
    by now rewrite lstrip_spaces_app.
  assert (Hm : match_at Smart.INDENT 0 (ws ++ body)
               = Some (length ws, [ws])).
  { unfold match_at, Smart.INDENT. cbn [run Nat.eqb].
    rewrite star_isspace_total by discriminate.
    rewrite Hl, length_app. cbn [app plus].
    replace (length ws + length body - length body - 0)
      with (length ws + 0) by lia.
    rewrite firstn_app_2, app_nil_r. f_equal. f_equal. lia. }
  unfold re_sub.
  destruct (ws ++ body) as [|c t] eqn:E.
  { destruct ws; [|discriminate]. simpl in E. subst body.
    cbn [sub_from]. rewrite Hm. reflexivity. }
  cbn [sub_from]. rewrite Hm. unfold Smart.INDENT.
  destruct ws as [|x ws'].
  - simpl in E. subst body. cbn [length].
    rewrite sub_from_anchored. reflexivity.
  - cbn [length]. rewrite sub_from_anchored.
    injection E as -> <-.
    rewrite skipn_app, skipn_all2, Nat.sub_diag by lia.
    unfold expand. simpl. now rewrite <- app_assoc.
Qed.

(** No line that the contains-anywhere variant emits is a standalone
    call any more. *)
Lemma transform_line_not_standalone (l : str) :
  re_match Smart.STANDALONE (Smart.transform_line l) = false.
Proof.
  assert (Hno : forall x, contains TARGET x = false ->
                          re_match Smart.STANDALONE x = false).
  { intros x Hx. rewrite standalone_match.
    destruct (startswith TARGET (lstrip x)) eqn:Hs; [|reflexivity].
    destruct (lstrip_split x) as (ws & E & _).
    apply startswith_split in Hs.
    rewrite E, Hs in Hx.
    rewrite contains_app_r in Hx; [discriminate|].
    apply contains_starts, startswith_app. }
  assert (Hmark : forall ws body, forallb isspace ws = true ->
            re_match Smart.STANDALONE (ws ++ Smart.MARKER ++ body) = false).
  { intros ws body Hws. rewrite standalone_match.
    now rewrite lstrip_spaces_app. }
  unfold Smart.transform_line.
  destruct (contains TARGET l) eqn:Hc; [|now apply Hno].
  destruct (re_match Smart.STANDALONE l) eqn:Hs.
  - rewrite standalone_match in Hs.
    destruct (lstrip_split l) as (ws & E & Hws).
    apply startswith_split in Hs. rewrite Hs in E.
    rewrite E, standalone_sub by exact Hws. now apply Hmark.
  - destruct (contains TARGET (re_sub Smart.CALL [Lit Smart.NOOP] l))
      eqn:Hc'; [|now apply Hno].
    destruct (lstrip_split (re_sub Smart.CALL [Lit Smart.NOOP] l))
      as (ws & E & Hws).
    rewrite E, indent_sub; [now apply Hmark|exact Hws|apply lstrip_fixed].
Qed.

(** The comment marker, spelled out: a hash sign and a space in front of
    the line. *)
Lemma comment_marker (l : str) : Final.comment l = lit "# " ++ l.
Proof. reflexivity. Qed.

Lemma map_comment_marker (ls : list str) :
  map Final.comment ls = map (fun l => lit "# " ++ l) ls.
Proof. apply map_ext. intros l. apply comment_marker. Qed.

(* ================================================================== *)
(** ** The properties of the specification *)

(** C1, as amended.  Under the strict-prefix policy the balanced
    one-line statement [  IO.puts("hello")] is commented by putting the
    marker and a space in front of the whole line, indentation included:
    the output line is [#   IO.puts("hello")].  The parenthesis balance
    is 0 and no string block is open after that line, so no further line
    is consumed: the lines that follow are processed as they would be on
    their own. *)
Theorem C1_balanced_single_line (eol : str) (rest : list str) :
  Doc.terminator eol ->
  Final.process_lines [Doc.hello ++ eol]
  = Ok {| Final.i := 1;
          Final.new_lines := [Doc.hello_commented ++ eol];
          Final.modified := true;
          Final.paren_count := 0;
          Final.in_heredoc := false |} /\
  exists s s',
    Final.process_lines ((Doc.hello ++ eol) :: rest) = Ok s /\
    Final.process_lines rest = Ok s' /\
    Final.new_lines s
    = (Doc.hello_commented ++ eol) :: Final.new_lines s'.
Proof.
  intros Heol. split.
  - destruct Heol as [-> | ->]; vm_compute; reflexivity.
  - rewrite !scan_is_pass. eexists. eexists.
    split; [reflexivity|]. split; [reflexivity|].
    change (Final.pass ((Doc.hello ++ eol) :: rest) Final.init)
      with (Final.pass rest (Final.step Final.init (Doc.hello ++ eol))).
    apply (@pass_frame rest _ Final.init [Doc.hello_commented ++ eol]);
      destruct Heol as [-> | ->]; vm_compute; reflexivity.
Qed.

Lemma C1_balanced_single_line_witness :
  Final.process_lines [Doc.hello ++ [LF]]
  = Ok {| Final.i := 1;
          Final.new_lines := [Doc.hello_commented ++ [LF]];
          Final.modified := true;
          Final.paren_count := 0;
          Final.in_heredoc := false |} /\
  exists s s',
    Final.process_lines ((Doc.hello ++ [LF]) :: [lit "x" ++ [LF]]) = Ok s /\
    Final.process_lines [lit "x" ++ [LF]] = Ok s' /\
    Final.new_lines s
    = (Doc.hello_commented ++ [LF]) :: Final.new_lines s'.
Proof.
  apply (@C1_balanced_single_line [LF] [lit "x" ++ [LF]]).
  right. reflexivity.
Defined.

(** C1 as stated fails: the output line is not [  # IO.puts("hello")],
    the marker is not inserted after the indentation. *)
Lemma C1_counterexample :
  Final.process_lines [Doc.hello]
  = Ok {| Final.i := 1;
          Final.new_lines := [Doc.hello_commented];
          Final.modified := true;
          Final.paren_count := 0;
          Final.in_heredoc := false |} /\
  Doc.hello_commented <> Doc.hello_indented.
Proof. split; [vm_compute; reflexivity|discriminate]. Qed.

(** C2, as amended.  The strict-prefix transformation is idempotent: a
    commented line is no statement start, so run on its own output the
    transformation finds no match ([modified] stays false) and returns
    the lines as they are.  Under the contains-anywhere policy a line of
    the output is never a standalone call again, but it can still contain
    the target text. *)
Theorem C2_strict_idempotent (d : list str) :
  (forall l, Final.is_start (Final.comment l) = false) /\
  (forall l, re_match Smart.STANDALONE (Smart.transform_line l) = false) /\
  exists s s',
    Final.process_lines d = Ok s /\
    Final.process_lines (Final.new_lines s) = Ok s' /\
    Final.new_lines s' = Final.new_lines s /\
    Final.modified s' = false.
Proof.
  split; [apply comment_not_start|].
  split; [apply transform_line_not_standalone|].
  rewrite scan_is_pass. eexists. eexists. split; [reflexivity|].
  rewrite scan_is_pass. split; [reflexivity|].
  rewrite pass_no_start.
  - split; reflexivity.
  - reflexivity.
  - apply pass_emits_no_start. constructor.
Qed.

(** C2 as stated fails for the contains-anywhere variant: the commented
    line still contains the target text, is taken for an embedded call on
    the second run and is changed again. *)
Lemma C2_counterexample :
  Smart.process_lines [Doc.plain]
  = Ok {| Smart.i := 1; Smart.modified_lines := [Doc.plain_once] |} /\
  Smart.process_lines [Doc.plain_once]
  = Ok {| Smart.i := 1; Smart.modified_lines := [Doc.plain_twice] |} /\
  Doc.plain_twice <> Doc.plain_once.
Proof.
  split; [vm_compute; reflexivity|].
  split; [vm_compute; reflexivity|discriminate].
Qed.

(** C3, as amended.  The contains-anywhere variant has no span extender:
    every line is transformed on its own.  A line without the target text
    is passed through unchanged, also when it continues a statement
    opened on an earlier line; the start line of a standalone statement
    gets the marker between its indentation and the call. *)
Theorem C3_contains_anywhere_line_by_line (lines : list str) :
  Smart.process_lines lines
  = Ok {| Smart.i := length lines;
          Smart.modified_lines := map Smart.transform_line lines |} /\
  (forall l, contains TARGET l = false -> Smart.transform_line l = l) /\
  (forall l, re_match Smart.STANDALONE l = true ->
     exists ws rest,
       l = ws ++ TARGET ++ rest /\ forallb isspace ws = true /\
       Smart.transform_line l = ws ++ Smart.MARKER ++ TARGET ++ rest).
Proof.
  split; [apply smart_scan_is_map|].
  split; [apply transform_line_plain|].
  intros l Hl. pose proof Hl as Hm. rewrite standalone_match in Hm.
  destruct (indent_split l) as (ws & E & Hws & _).
  apply startswith_split in Hm. change (length TARGET) with 7 in Hm.
  exists ws, (skipn 7 (lstrip l)).
  assert (El : l = ws ++ TARGET ++ skipn 7 (lstrip l)) by congruence.
  split; [exact El|]. split; [exact Hws|].
  unfold Smart.transform_line. rewrite Hl.
  replace (contains TARGET l) with true.
  - rewrite El at 1. now apply standalone_sub.
  - symmetry. rewrite El.
    apply contains_app_r, contains_starts, startswith_app.
Qed.

(** C3 as stated fails: of the three lines of a call spread over them the
    contains-anywhere variant comments the first only, where the
    strict-prefix variant comments all three. *)
Lemma C3_counterexample :
  Smart.process_lines Doc.spread
  = Ok {| Smart.i := 3;
          Smart.modified_lines :=
            [ lit "# IO.puts(" ++ [LF];
              lit "  " ++ Doc.quoted "hello" ++ [LF];
              lit ")" ++ [LF] ] |} /\
  Final.process_lines Doc.spread
  = Ok {| Final.i := 3;
          Final.new_lines := map Final.comment Doc.spread;
          Final.modified := true;
          Final.paren_count := 0;
          Final.in_heredoc := false |}.
Proof. split; vm_compute; reflexivity. Qed.

(** C4, as amended.  Under the strict-prefix policy a line is a
    statement start exactly when, after its leading whitespace, it begins
    with [IO.puts], then any number of whitespace characters (none
    included), then an opening parenthesis. *)
Theorem C4_strict_start (line : str) :
  Final.is_start line = true <->
  exists ws rest,
    lstrip line = TARGET ++ ws ++ LPAREN :: rest /\
    forallb isspace ws = true.
Proof. apply is_start_spec. Qed.

(** C4 as stated fails: [IO.puts ("x")] is a statement start although a
    space separates the name from the parenthesis. *)
Lemma C4_counterexample :
  Final.is_start Doc.spaced = true /\
  startswith (lit "IO.puts(") (lstrip Doc.spaced) = false.
Proof. split; vm_compute; reflexivity. Qed.

(** C5.  Under the strict-prefix variant the four lines of the
    triple-quoted call all come out with the comment marker [# ] in
    front.  After line 1 the balance is 1 and the string-block flag is
    true; they stay so after lines 2 and 3; line 4 toggles the flag to
    false and brings the balance to 0, which closes the span. *)
Theorem C5_triple_quoted_block (eol : str) :
  Doc.terminator eol ->
  Final.process_lines (Doc.heredoc eol)
  = Ok {| Final.i := 4;
          Final.new_lines :=
            [ lit "# IO.puts(" ++ Final.TRIPLE ++ [LF];
              lit "# multi" ++ [LF];
              lit "# line" ++ [LF];
              lit "# " ++ Final.TRIPLE ++ lit ")" ++ eol ];
          Final.modified := true;
          Final.paren_count := 0;
          Final.in_heredoc := false |} /\
  Final.process_lines (firstn 1 (Doc.heredoc eol))
  = Ok {| Final.i := 1;
          Final.new_lines :=
            [ lit "# IO.puts(" ++ Final.TRIPLE ++ [LF] ];
          Final.modified := true;
          Final.paren_count := 1;
          Final.in_heredoc := true |} /\
  Final.process_lines (firstn 2 (Doc.heredoc eol))
  = Ok {| Final.i := 2;
          Final.new_lines :=
            [ lit "# IO.puts(" ++ Final.TRIPLE ++ [LF];
              lit "# multi" ++ [LF] ];
          Final.modified := true;
          Final.paren_count := 1;
          Final.in_heredoc := true |} /\
  Final.process_lines (firstn 3 (Doc.heredoc eol))
  = Ok {| Final.i := 3;
          Final.new_lines :=
            [ lit "# IO.puts(" ++ Final.TRIPLE ++ [LF];
              lit "# multi" ++ [LF];
              lit "# line" ++ [LF] ];
          Final.modified := true;
          Final.paren_count := 1;
          Final.in_heredoc := true |}.
Proof.
  intros [-> | ->]; repeat split; vm_compute; reflexivity.
Qed.

Lemma C5_triple_quoted_block_witness :
  Final.process_lines (Doc.heredoc [LF])
  = Ok {| Final.i := 4;
          Final.new_lines :=
            [ lit "# IO.puts(" ++ Final.TRIPLE ++ [LF];
              lit "# multi" ++ [LF];
              lit "# line" ++ [LF];
              lit "# " ++ Final.TRIPLE ++ lit ")" ++ [LF] ];
          Final.modified := true;
          Final.paren_count := 0;
          Final.in_heredoc := false |}.
Proof.
  apply (@C5_triple_quoted_block [LF]). right. reflexivity.
Defined.

(** C6.  Under the contains-anywhere policy the line
    [  x -> IO.puts("y")] becomes [  x -> :ok]: the call and its argument
    list are replaced by the placeholder, the line gets no comment marker
    and stays one line, whatever lines stand before and after it. *)
Theorem C6_embedded_call (eol : str) (before after : list str) :
  Doc.terminator eol ->
  exists s,
    Smart.process_lines (before ++ (Doc.branch ++ eol) :: after) = Ok s /\
    Smart.modified_lines s
    = map Smart.transform_line before
      ++ (Doc.branch_ok ++ eol) :: map Smart.transform_line after /\
    length (Smart.modified_lines s)
    = length (before ++ (Doc.branch ++ eol) :: after).
Proof.
  intros Heol. rewrite smart_scan_is_map. eexists.
  split; [reflexivity|]. simpl. split.
  - rewrite map_app. simpl. f_equal. f_equal.
    destruct Heol as [-> | ->]; vm_compute; reflexivity.
  - now rewrite length_map.
Qed.

Lemma C6_embedded_call_witness :
  exists s,
    Smart.process_lines [Doc.branch] = Ok s /\
    Smart.modified_lines s = [Doc.branch_ok] /\
    length (Smart.modified_lines s) = 1.
Proof.
  destruct (@C6_embedded_call [] [] []) as (s & H1 & H2 & H3).
  - left. reflexivity.
  - exists s. rewrite app_nil_r in *. auto.
Defined.

(** C7.  In both variants the output has as many lines as the input and
    its i-th line comes from the i-th input line: under the strict-prefix
    policy it is that line, as it is or commented; under the
    contains-anywhere policy it is that line transformed. *)
Theorem C7_line_for_line (lines : list str) :
  (exists s,
     Final.process_lines lines = Ok s /\
     length (Final.new_lines s) = length lines /\
     Forall2 (fun l o => o = l \/ o = Final.comment l)
             lines (Final.new_lines s)) /\
  (exists s,
     Smart.process_lines lines = Ok s /\
     length (Smart.modified_lines s) = length lines /\
     Forall2 (fun l o => o = Smart.transform_line l)
             lines (Smart.modified_lines s)).
Proof.
  split.
  - rewrite scan_is_pass. eexists. split; [reflexivity|].
    destruct (pass_lines lines Final.init) as (outs & E & F).
    simpl in E. rewrite E. split; [|exact F].
    symmetry. exact (Forall2_length F).
  - rewrite smart_scan_is_map. eexists. split; [reflexivity|]. simpl.
    split; [apply length_map|].
    induction lines; simpl; constructor; auto.
Qed.
(** C8.  A file without the target text is left as it is: the
    transformation of either variant returns its lines unchanged, and
    neither driver changes it or opens it for writing.  A driver writes a
    file back only if a match was found in it: a statement start under
    the strict-prefix policy, a line with the target text under the
    contains-anywhere policy. *)
Theorem C8_no_match_no_write (w : world) (walk : list (str * str))
        (found : list path) :
  (forall p c, files w p = Some c -> contains TARGET c = false ->
     (exists s, Final.process_lines (readlines c) = Ok s /\
                Final.new_lines s = readlines c /\
                Final.modified s = false) /\
     (exists s, Smart.process_lines (readlines c) = Ok s /\
                Smart.modified_lines s = readlines c) /\
     Final.process_file p w = (w, Ok false) /\
     files (fst (Final.main walk w)) p = Some c /\
     (In p (written (fst (Final.main walk w))) -> In p (written w)) /\
     files (fst (Smart.main found w)) p = Some c /\
     (In p (written (fst (Smart.main found w))) -> In p (written w))) /\
  (forall p, In p (written (fst (Final.main walk w))) ->
     In p (written w) \/
     exists c l, files w p = Some c /\ In l (readlines c) /\
                 Final.is_start l = true) /\
  (forall p, In p (written (fst (Smart.main found w))) ->
     In p (written w) \/
     exists c l, files w p = Some c /\ In l (readlines c) /\
                 contains TARGET l = true).
Proof.
  split; [|split].
  - intros p c Hp Hc.
    assert (Hlines : Forall (fun l => contains TARGET l = false)
                            (readlines c)).
    { apply Forall_forall. intros l Hin.
      destruct (contains TARGET l) eqn:Hl; [|reflexivity].
      rewrite (@line_of_file TARGET c l Hin Hl) in Hc. discriminate. }
    assert (Hstart : Forall (fun l => Final.is_start l = false)
                            (readlines c)).
    { eapply Forall_impl; [|exact Hlines]. intros l Hl. simpl in Hl.
      destruct (Final.is_start l) eqn:Hs; [|reflexivity].
      apply start_contains in Hs. congruence. }
    assert (Hpass : Final.pass (readlines c) Final.init
                    = {| Final.i := length (readlines c);
                         Final.new_lines := readlines c;
                         Final.modified := false;
                         Final.paren_count := 0;
                         Final.in_heredoc := false |})
      by (rewrite pass_no_start; auto).
    split; [|split; [|split]].
    + rewrite scan_is_pass, Hpass. eexists.
      split; [reflexivity|]. now split.
    + rewrite smart_scan_is_map. eexists. split; [reflexivity|]. simpl.
      clear Hstart Hpass.
      induction Hlines as [|l ls Hl _ IH]; simpl; [reflexivity|].
      now rewrite transform_line_plain, IH.
    + now rewrite process_file_eq, Hp, Hpass.
    + destruct (@main_loop_untouched p c walk Hc 0 w Hp) as [H1 H2].
      destruct (@smart_main_loop_untouched p c found Hc 0 w Hp) as [H3 H4].
      auto.
  - intros p. apply main_loop_written.
  - intros p. apply smart_main_loop_written.
Qed.

Lemma C8_no_match_no_write_witness :
  files (fst (Final.main Doc.walked Doc.disk)) Doc.lib_b
  = Some Doc.no_call /\
  files (fst (Smart.main [Doc.lib_a; Doc.lib_b] Doc.disk)) Doc.lib_b
  = Some Doc.no_call.
Proof.
  destruct (C8_no_match_no_write Doc.disk Doc.walked [Doc.lib_a; Doc.lib_b])
    as [H _].
  destruct (H Doc.lib_b Doc.no_call eq_refl eq_refl)
    as (_ & _ & _ & H1 & _ & H2 & _).
  split; assumption.
Defined.

(** On that disk each driver writes the file with the call, once, and no
    other. *)
Example drivers_write_lib_a :
  written (fst (Final.main Doc.walked Doc.disk)) = [Doc.lib_a] /\
  written (fst (Smart.main [Doc.lib_a; Doc.lib_b] Doc.disk)) = [Doc.lib_a].
Proof. split; vm_compute; reflexivity. Qed.

(** C9.  When a statement start is reached outside a span and its span is
    still open after every line up to the last one of the document, the
    loops end at the end of the document without an exception: the start
    line and every line after it come out with the comment marker [# ]
    in front. *)
Theorem C9_span_to_end_of_file (pre : list str) (start : str)
        (rest : list str) (s0 : Final.locals) :
  Final.process_lines pre = Ok s0 ->
  Final.span_open s0 = false ->
  Final.is_start start = true ->
  Final.stays_open (Final.started s0 start) rest = true ->
  exists s,
    Final.process_lines (pre ++ start :: rest) = Ok s /\
    Final.new_lines s
    = Final.new_lines s0 ++ map (fun l => lit "# " ++ l) (start :: rest) /\
    Final.i s = length (pre ++ start :: rest) /\
    Final.modified s = true.
Proof.
  intros Hpre Hclosed Hstart Hopen.
  rewrite scan_is_pass in Hpre. injection Hpre as Hpre.
  rewrite scan_is_pass, pass_app, Hpre. eexists. split; [reflexivity|].
  change (Final.pass (start :: rest) s0)
    with (Final.pass rest (Final.step s0 start)).
  replace (Final.step s0 start) with (Final.started s0 start)
    by (unfold Final.step; now rewrite Hclosed, Hstart).
  rewrite (@pass_stays_open rest _ Hopen). simpl.
  split; [now rewrite <- app_assoc, map_comment_marker|].
  split; [|reflexivity].
  rewrite <- Hpre, pass_index, length_app. simpl. lia.
Qed.

Lemma C9_span_to_end_of_file_witness :
  exists s,
    Final.process_lines ([lit "x" ++ [LF]] ++ Doc.unterminated) = Ok s /\
    Final.new_lines s
    = [lit "x" ++ [LF]]
      ++ [ lit "# IO.puts(" ++ [LF];
           lit "#   1," ++ [LF];
           lit "#   2" ++ [LF] ] /\
    Final.i s = 4 /\
    Final.modified s = true.
Proof.
  apply (@C9_span_to_end_of_file
           [lit "x" ++ [LF]] (lit "IO.puts(" ++ [LF])
           [lit "  1," ++ [LF]; lit "  2" ++ [LF]]
           {| Final.i := 1; Final.new_lines := [lit "x" ++ [LF]];
              Final.modified := false; Final.paren_count := 0;
              Final.in_heredoc := false |});
    vm_compute; reflexivity.
Defined.

(** C10.  Both variants terminate on every list of lines.  Each
    iteration of the inner loop of the strict-prefix variant and of the
    loop of the contains-anywhere variant moves the index forward by one,
    each iteration of the outer loop of the strict-prefix variant moves
    it forward by at least one, and a loop bound of one more than the
    number of lines is never reached: the loops return, without an
    exception, with the index at the end of the lines. *)
Theorem C10_termination (lines : list str) :
  (forall s s', Final.span_cond lines s = true ->
     Final.span_body lines s = Ok s' -> Final.i s' = S (Final.i s)) /\
  (forall fuel s s', Final.scan_cond lines s = true ->
     Final.scan_body lines fuel s = Ok s' -> Final.i s < Final.i s') /\
  (forall s s', Smart.scan_cond lines s = true ->
     Smart.scan_body lines s = Ok s' -> Smart.i s' = S (Smart.i s)) /\
  (exists s, Final.i s = length lines /\
     Final.process_lines lines = Ok s /\
     forall fuel, length lines < fuel -> Final.scan lines fuel = Ok s) /\
  (exists s, Smart.i s = length lines /\
     Smart.process_lines lines = Ok s /\
     forall fuel, length lines < fuel -> Smart.scan lines fuel = Ok s).
Proof.
  assert (Hspan : forall s s', Final.span_cond lines s = true ->
            Final.span_body lines s = Ok s' -> Final.i s' = S (Final.i s)).
  { intros s s' _ H. unfold Final.span_body in H.
    destruct (nth_error lines (Final.i s)); [|discriminate].
    injection H as <-. reflexivity. }
  split; [exact Hspan|]. split; [|split; [|split]].
  - intros fuel s s' _ H. unfold Final.scan_body in H.
    destruct (nth_error lines (Final.i s)) as [line|]; [|discriminate].
    destruct (Final.is_start line).
    + apply (@while_measure_le _ _ _ Final.i) in H.
      * simpl in H. lia.
      * intros a b Ha Hb. rewrite (Hspan _ _ Ha Hb). lia.
    + injection H as <-. simpl. lia.
  - intros s s' _ H. unfold Smart.scan_body in H.
    destruct (nth_error lines (Smart.i s)); [|discriminate].
    injection H as <-. reflexivity.
  - exists (Final.pass lines Final.init). split; [|split].
    + now rewrite pass_index.
    + apply scan_is_pass.
    + intros fuel Hf. unfold Final.scan.
      apply scan_loop with (done := []); simpl; auto.
  - exists {| Smart.i := length lines;
              Smart.modified_lines := map Smart.transform_line lines |}.
    split; [reflexivity|]. split; [apply smart_scan_is_map|].
    intros fuel Hf. unfold Smart.scan.
    now rewrite (@smart_scan_loop lines fuel lines [] Smart.init).
Qed.

(* ================================================================== *)
(** ** Further facts about the strict-prefix pass *)

Section MorePassFacts.
Import Final.

(** Outside a span the output does not depend on the balance left by the
    last span. *)
Lemma pass_closed_frame (ls : list str) :
  forall (s s' : locals) (pre : list str),
  span_open s = false -> span_open s' = false ->
  new_lines s = pre ++ new_lines s' ->
  new_lines (pass ls s) = pre ++ new_lines (pass ls s').
Proof.
  induction ls as [|l t IH]; intros s s' pre Hs Hs' Hn; [exact Hn|].
  change (pass (l :: t) s) with (pass t (step s l)).
  change (pass (l :: t) s') with (pass t (step s' l)).
  unfold step. rewrite Hs, Hs'. destruct (is_start l).
  - apply pass_frame; simpl; try reflexivity.
    now rewrite Hn, <- app_assoc.
  - apply IH; simpl; try assumption.
    now rewrite Hn, <- app_assoc.
Qed.

(** [modified] is set exactly when some line is a statement start. *)
Lemma modified_existsb (ls : list str) :
  forall s, (span_open s = true -> modified s = true) ->
  modified (pass ls s) = modified s || existsb is_start ls.
Proof.
  induction ls as [|l t IH]; intros s Hinv.
  - simpl. now rewrite orb_false_r.
  - change (pass (l :: t) s) with (pass t (step s l)).
    cbn [existsb]. unfold step.
    destruct (span_open s) eqn:Ho.
    + rewrite IH; simpl; rewrite (Hinv eq_refl); reflexivity.
    + destruct (is_start l) eqn:Hl.
      * rewrite IH; simpl; [|reflexivity]. now rewrite orb_true_r.
      * rewrite IH; simpl; [reflexivity|].
        intros H. unfold span_open in H. simpl in H.
        unfold span_open in Ho. congruence.
Qed.

Lemma pass_open_lines (body : list str) :
  forall s, stays_open s body = true ->
  new_lines (pass body s) = new_lines s ++ map comment body /\
  modified (pass body s) = modified s.
Proof.
  intros s H. rewrite (@pass_stays_open body s H). simpl. now split.
Qed.

End MorePassFacts.

(* ================================================================== *)
(** ** Further properties of the scripts *)

(** X1.  A statement start that is reached outside a span, whose own
    parentheses leave a balance of zero or less and that opens no string
    block, is a span of one line: it comes out with the comment marker
    [# ] in front, and the lines after it are processed as on their
    own. *)
Theorem X1_closed_start_is_one_line (pre : list str) (l : str)
        (rest : list str) (s0 : Final.locals) :
  Final.process_lines pre = Ok s0 ->
  Final.span_open s0 = false ->
  Final.is_start l = true ->
  (Final.paren_delta l <= 0)%Z ->
  contains Final.TRIPLE l && Final.odd_triple l = false ->
  exists s s',
    Final.process_lines (pre ++ l :: rest) = Ok s /\
    Final.process_lines rest = Ok s' /\
    Final.new_lines s
    = Final.new_lines s0 ++ (lit "# " ++ l) :: Final.new_lines s' /\
    Final.modified s = true.
Proof.
  intros Hpre Hclosed Hl Hp Hh.
  rewrite scan_is_pass in Hpre. injection Hpre as Hpre.
  rewrite !scan_is_pass, pass_app, Hpre. eexists. eexists.
  split; [reflexivity|]. split; [reflexivity|].
  change (Final.pass (l :: rest) s0)
    with (Final.pass rest (Final.step s0 l)).
  replace (Final.step s0 l) with (Final.started s0 l)
    by (unfold Final.step; now rewrite Hclosed, Hl).
  split.
  - rewrite <- comment_marker.
    rewrite (@pass_closed_frame rest (Final.started s0 l) Final.init
               (Final.new_lines s0 ++ [Final.comment l])).
    + now rewrite <- app_assoc.
    + unfold Final.span_open. simpl. rewrite Hh, orb_false_r.
      apply Z.ltb_ge. exact Hp.
    + reflexivity.
    + simpl. now rewrite app_nil_r.
  - rewrite modified_existsb; [reflexivity|reflexivity].
Qed.

Lemma X1_closed_start_is_one_line_witness :
  exists s s',
    Final.process_lines
      ([lit "a" ++ [LF]] ++ (lit "IO.puts(1))" ++ [LF]) :: [lit "x" ++ [LF]])
    = Ok s /\
    Final.process_lines [lit "x" ++ [LF]] = Ok s' /\
    Final.new_lines s
    = [lit "a" ++ [LF]]
      ++ (lit "# " ++ lit "IO.puts(1))" ++ [LF]) :: Final.new_lines s' /\
    Final.modified s = true.
Proof.
  apply (@X1_closed_start_is_one_line
           [lit "a" ++ [LF]] (lit "IO.puts(1))" ++ [LF]) [lit "x" ++ [LF]]
           {| Final.i := 1; Final.new_lines := [lit "a" ++ [LF]];
              Final.modified := false; Final.paren_count := 0;
              Final.in_heredoc := false |}).
  - vm_compute. reflexivity.
  - vm_compute. reflexivity.
  - vm_compute. reflexivity.
  - vm_compute. discriminate.
  - vm_compute. reflexivity.
Defined.

(** X2.  A statement start that is reached outside a span and whose span
    is open after it and after each line of [body], and closed after the
    line [close], makes one span of these lines: all of them come out
    with the comment marker [# ] in front, and the lines after [close]
    are processed as on their own. *)
Theorem X2_span_closes (pre : list str) (start close : str)
        (body rest : list str) (s0 : Final.locals) :
  Final.process_lines pre = Ok s0 ->
  Final.span_open s0 = false ->
  Final.is_start start = true ->
  Final.stays_open (Final.started s0 start) body = true ->
  Final.span_open
    (Final.pass (body ++ [close]) (Final.started s0 start)) = false ->
  exists s s',
    Final.process_lines (pre ++ start :: body ++ close :: rest) = Ok s /\
    Final.process_lines rest = Ok s' /\
    Final.new_lines s
    = Final.new_lines s0
      ++ map (fun l => lit "# " ++ l) (start :: body ++ [close])
      ++ Final.new_lines s'.
Proof.
  intros Hpre Hc0 Hs Hopen Hclosed.
  rewrite scan_is_pass in Hpre. injection Hpre as Hpre.
  rewrite !scan_is_pass, pass_app, Hpre. eexists. eexists.
  split; [reflexivity|]. split; [reflexivity|].
  change (Final.pass (start :: body ++ close :: rest) s0)
    with (Final.pass (body ++ close :: rest) (Final.step s0 start)).
  replace (Final.step s0 start) with (Final.started s0 start)
    by (unfold Final.step; now rewrite Hc0, Hs).
  replace (body ++ close :: rest) with ((body ++ [close]) ++ rest)
    by now rewrite <- app_assoc.
  rewrite pass_app, <- map_comment_marker, app_assoc.
  apply pass_closed_frame; [exact Hclosed|reflexivity|].
  rewrite pass_app.
  destruct (pass_open_lines _ _ Hopen) as [Hn Hm].
  assert (Ho : Final.span_open
                 (Final.pass body (Final.started s0 start)) = true).
  { clear - Hopen. revert Hopen.
    generalize (Final.started s0 start).
    induction body as [|b t IH]; intros s H; simpl in H;
      apply andb_true_iff in H as [H1 H2]; [exact H1|].
    apply (IH _ H2). }
  change (Final.pass [close] ?x) with (Final.step x close).
  rewrite (@step_open close _ Ho). simpl. rewrite Hn. simpl.
  rewrite map_app. simpl. now rewrite app_nil_r, <- !app_assoc.
Qed.

Lemma X2_span_closes_witness :
  exists s s',
    Final.process_lines
      ([lit "a" ++ [LF]]
       ++ (lit "IO.puts(" ++ [LF])
          :: [lit "  1" ++ [LF]] ++ (lit ")" ++ [LF]) :: [lit "x" ++ [LF]])
    = Ok s /\
    Final.process_lines [lit "x" ++ [LF]] = Ok s' /\
    Final.new_lines s
    = [lit "a" ++ [LF]]
      ++ map (fun l => lit "# " ++ l)
             ((lit "IO.puts(" ++ [LF])
              :: [lit "  1" ++ [LF]] ++ [lit ")" ++ [LF]])
      ++ Final.new_lines s'.
Proof.
  apply (@X2_span_closes [lit "a" ++ [LF]]
           (lit "IO.puts(" ++ [LF]) (lit ")" ++ [LF])
           [lit "  1" ++ [LF]] [lit "x" ++ [LF]]
           {| Final.i := 1; Final.new_lines := [lit "a" ++ [LF]];
              Final.modified := false; Final.paren_count := 0;
              Final.in_heredoc := false |});
    vm_compute; reflexivity.
Defined.

(* ------------------------------------------------------------------ *)
(** *** What a file looks like after it was written back *)

Section ShapeFacts.
Import Shape.

Lemma full_line_nonnil (l : str) : full_line l = true -> l <> [].
Proof. destruct l; [discriminate|discriminate]. Qed.

Lemma full_line_cons (x y : char) (l : str) :
  full_line (x :: y :: l) = negb (x =? LF)%N && full_line (y :: l).
Proof. reflexivity. Qed.

Lemma readlines_shape (c : str) : file_lines (readlines c) = true.
Proof.
  induction c as [|x t IH]; [reflexivity|].
  simpl. destruct (N.eqb_spec x LF) as [->|Hx].
  - destruct (readlines t); simpl; [reflexivity|exact IH].
  - apply N.eqb_neq in Hx.
    destruct (readlines t) as [|l ls].
    + simpl. now rewrite Hx.
    + cbn [file_lines] in *. destruct ls as [|l' ls'].
      * apply orb_true_iff in IH as [IH|IH]; apply orb_true_iff.
        -- left. destruct l as [|y l0]; [discriminate|].
           now rewrite full_line_cons, Hx, IH.
        -- right. destruct l as [|y l0]; [discriminate|].
           unfold open_line, no_lf in *. cbn [forallb] in *.
           now rewrite Hx, IH.
      * apply andb_true_iff in IH as [IH1 IH2].
        apply andb_true_iff. split; [|exact IH2].
        destruct l as [|y l0]; [discriminate|].
        now rewrite full_line_cons, Hx, IH1.
Qed.

Lemma readlines_cons (c : char) (t : str) :
  (c =? LF)%N = false ->
  readlines (c :: t)
  = match readlines t with
    | [] => [[c]]
    | l :: ls => (c :: l) :: ls
    end.
Proof. intros H. cbn [readlines]. now rewrite H. Qed.

Lemma readlines_full (l rest : str) :
  full_line l = true -> readlines (l ++ rest) = l :: readlines rest.
Proof.
  induction l as [|c t IH]; intros H; [discriminate|].
  cbn [full_line] in H. destruct t as [|c' t'].
  - apply N.eqb_eq in H. subst c. reflexivity.
  - apply andb_true_iff in H as [Hc Ht].
    apply negb_true_iff in Hc.
    change ((c :: c' :: t') ++ rest) with (c :: ((c' :: t') ++ rest)).
    rewrite (@readlines_cons c _ Hc), (IH Ht). reflexivity.
Qed.

Lemma readlines_open (l : str) :
  open_line l = true -> readlines l = [l].
Proof.
  destruct l as [|c t]; [discriminate|]. unfold open_line, no_lf.
  revert c. induction t as [|c' t' IH]; intros c H;
    cbn [forallb] in H; apply andb_true_iff in H as [Hc Ht];
    apply negb_true_iff in Hc; rewrite (@readlines_cons c _ Hc).
  - reflexivity.
  - now rewrite (IH c' Ht).
Qed.

(** Writing lines of that shape and reading them back gives the lines. *)
Lemma readlines_writelines (ls : list str) :
  file_lines ls = true -> readlines (writelines ls) = ls.
Proof.
  unfold writelines. induction ls as [|l t IH]; intros H; [reflexivity|].
  cbn [file_lines] in H. cbn [concat]. destruct t as [|l' t'].
  - simpl. rewrite app_nil_r.
    apply orb_true_iff in H as [H|H].
    + rewrite <- (app_nil_r l) at 1. now rewrite readlines_full.
    + now apply readlines_open.
  - apply andb_true_iff in H as [H1 H2].
    rewrite readlines_full by exact H1. now rewrite IH.
Qed.

Lemma full_line_comment (l : str) :
  full_line (Final.comment l) = full_line l.
Proof. destruct l; reflexivity. Qed.

Lemma open_line_comment (l : str) :
  open_line l = true -> open_line (Final.comment l) = true.
Proof. destruct l; [discriminate|]. intros H. exact H. Qed.

(** Commenting some of the lines keeps the shape. *)
Lemma file_lines_commented (ls outs : list str) :
  Forall2 (fun l o => o = l \/ o = Final.comment l) ls outs ->
  file_lines ls = true -> file_lines outs = true.
Proof.
  induction 1 as [|l o t t' Ho Ht IH]; intros H; [reflexivity|].
  cbn [file_lines] in *.
  assert (Hfull : full_line l = true -> full_line o = true).
  { destruct Ho as [->| ->]; [auto|]. now rewrite full_line_comment. }
  assert (Hopen : open_line l = true -> open_line o = true).
  { destruct Ho as [->| ->]; [auto|]. apply open_line_comment. }
  destruct Ht as [|l2 o2 t2 t2' Ho2 Ht2].
  - apply orb_true_iff in H as [H|H]; apply orb_true_iff; auto.
  - apply andb_true_iff in H as [H1 H2].
    apply andb_true_iff. split; [auto|]. apply IH. exact H2.
Qed.

End ShapeFacts.

Section FileFacts.
Import Final.

Lemma files_write_same (p : path) (content : str) (w : world) :
  files (write p content w) p = Some content.
Proof. simpl. now rewrite str_eqb_refl. Qed.

(** What the strict-prefix variant writes reads back as its output. *)
Lemma reread_output (c : str) :
  readlines (writelines (new_lines (pass (readlines c) init)))
  = new_lines (pass (readlines c) init).
Proof.
  apply readlines_writelines.
  destruct (pass_lines (readlines c) init) as (outs & E & F).
  simpl in E. rewrite E.
  eapply file_lines_commented; [exact F|apply readlines_shape].
Qed.

End FileFacts.

(** X3.  [process_file] of the strict-prefix variant returns [True] and
    writes the file back exactly when one of its lines is a statement
    start; otherwise it returns [False] and leaves the file system as it
    is. *)
Theorem X3_returns_true_iff_start (p : path) (c : str) (w : world) :
  files w p = Some c ->
  (existsb Final.is_start (readlines c) = false ->
     Final.process_file p w = (w, Ok false)) /\
  (existsb Final.is_start (readlines c) = true ->
     exists s,
       Final.process_lines (readlines c) = Ok s /\
       Final.process_file p w
       = (write p (writelines (Final.new_lines s)) w, Ok true)).
Proof.
  intros Hp. rewrite process_file_eq, Hp, scan_is_pass.
  rewrite modified_existsb by discriminate. simpl.
  split; intros H; rewrite H; [reflexivity|].
  eexists. split; reflexivity.
Qed.

Lemma X3_returns_true_iff_start_witness :
  Final.process_file Doc.lib_b Doc.disk = (Doc.disk, Ok false) /\
  exists s,
    Final.process_lines (readlines Doc.plain) = Ok s /\
    Final.process_file Doc.lib_a Doc.disk
    = (write Doc.lib_a (writelines (Final.new_lines s)) Doc.disk, Ok true).
Proof.
  split.
  - apply (@X3_returns_true_iff_start Doc.lib_b Doc.no_call Doc.disk);
      reflexivity.
  - apply (@X3_returns_true_iff_start Doc.lib_a Doc.plain Doc.disk);
      reflexivity.
Defined.

(** X4.  After [process_file] of the strict-prefix variant the file reads
    back line for line as the original: it has as many lines, and each is
    the original line, as it was or with the comment marker in front. *)
Theorem X4_file_keeps_its_lines (p : path) (c : str) (w : world) :
  files w p = Some c ->
  exists c',
    files (fst (Final.process_file p w)) p = Some c' /\
    length (readlines c') = length (readlines c) /\
    Forall2 (fun l o => o = l \/ o = Final.comment l)
            (readlines c) (readlines c').
Proof.
  intros Hp. rewrite process_file_eq, Hp.
  destruct (pass_lines (readlines c) Final.init) as (outs & E & F).
  simpl in E.
  destruct (Final.modified _); simpl.
  - rewrite str_eqb_refl. eexists. split; [reflexivity|].
    rewrite reread_output, E. split; [|exact F].
    symmetry. exact (Forall2_length F).
  - exists c. split; [exact Hp|]. split; [reflexivity|].
    clear. induction (readlines c); constructor; auto.
Qed.

Lemma X4_file_keeps_its_lines_witness :
  exists c',
    files (fst (Final.process_file Doc.lib_a Doc.disk)) Doc.lib_a
    = Some c' /\
    length (readlines c') = length (readlines Doc.plain) /\
    Forall2 (fun l o => o = l \/ o = Final.comment l)
            (readlines Doc.plain) (readlines c').
Proof.
  apply (@X4_file_keeps_its_lines Doc.lib_a Doc.plain Doc.disk).
  reflexivity.
Defined.

(* ------------------------------------------------------------------ *)
(** *** The drivers, one candidate at a time *)

Section FinalMainFacts.
Import Final.

Lemma existsb_false_Forall (ls : list str) :
  existsb is_start ls = false <->
  Forall (fun l => is_start l = false) ls.
Proof.
  induction ls as [|l t IH]; simpl.
  - split; [constructor|reflexivity].
  - rewrite orb_false_iff, IH. split.
    + intros [H1 H2]. now constructor.
    + intros H. inversion H; subst. now split.
Qed.

Lemma start_in_file (c : str) :
  existsb is_start (readlines c) = true -> contains TARGET c = true.
Proof.
  intros H. apply existsb_exists in H as (l & Hin & Hl).
  eapply line_of_file; [exact Hin|]. now apply start_contains.
Qed.

(** What the strict-prefix variant makes of the text of a file. *)
Lemma output_has_no_start (c : str) :
  existsb is_start
    (readlines (writelines (new_lines (pass (readlines c) init)))) = false.
Proof.
  rewrite reread_output. apply existsb_false_Forall.
  apply pass_emits_no_start. constructor.
Qed.

(** One candidate of the walk. *)
Lemma main_loop_cons (dirpath filename : str) (rest : list (str * str))
      (n : nat) (w : world) :
  main_loop ((dirpath, filename) :: rest) n w
  = if is_elixir filename
    then match files w (join dirpath filename) with
         | None => (w, Raised)
         | Some c =>
             if existsb is_start (readlines c)
             then main_loop rest (S n)
                    (write (join dirpath filename)
                       (writelines (new_lines (pass (readlines c) init)))
                       w)
             else main_loop rest n w
         end
    else main_loop rest n w.
Proof.
  cbn [main_loop]. destruct (is_elixir filename); [|reflexivity].
  destruct (files w (join dirpath filename)) as [c|] eqn:Ef;
    [|reflexivity].
  rewrite process_file_eq, Ef.
  rewrite modified_existsb by discriminate. simpl.
  destruct (existsb is_start (readlines c)) eqn:Es.
  - now rewrite (start_in_file _ Es).
  - now destruct (contains TARGET c).
Qed.

(** A file none of whose lines is a statement start is never changed. *)
Lemma main_loop_stable (p : path) (c : str) (walk : list (str * str)) :
  existsb is_start (readlines c) = false ->
  forall n w, files w p = Some c ->
  files (fst (main_loop walk n w)) p = Some c.
Proof.
  intros Hc. induction walk as [|[d f] rest IH]; intros n w Hp;
    [exact Hp|].
  rewrite main_loop_cons. destruct (is_elixir f); [|now apply IH].
  destruct (files w (join d f)) as [c0|] eqn:Ef; [|exact Hp].
  destruct (existsb is_start (readlines c0)) eqn:Es; [|now apply IH].
  apply IH. rewrite files_write_other; [exact Hp|].
  intros ->. congruence.
Qed.

Lemma main_loop_idem (walk : list (str * str)) :
  forall n m w,
  fst (main_loop walk m (fst (main_loop walk n w)))
  = fst (main_loop walk n w).
Proof.
  induction walk as [|[d f] rest IH]; intros n m w; [reflexivity|].
  rewrite (main_loop_cons d f rest n w).
  destruct (is_elixir f) eqn:Hf.
  - destruct (files w (join d f)) as [c|] eqn:Ef.
    + destruct (existsb is_start (readlines c)) eqn:Es.
      * rewrite main_loop_cons, Hf.
        rewrite (@main_loop_stable (join d f) _ rest
                   (output_has_no_start c)) by apply files_write_same.
        rewrite output_has_no_start. apply IH.
      * rewrite main_loop_cons, Hf.
        rewrite (@main_loop_stable (join d f) c rest Es n w Ef), Es.
        apply IH.
    + cbn [fst]. now rewrite main_loop_cons, Hf, Ef.
  - rewrite main_loop_cons, Hf. apply IH.
Qed.

(** The paths written only grow. *)
Lemma main_loop_written_grows (walk : list (str * str)) :
  forall n w, exists more,
  written (fst (main_loop walk n w)) = written w ++ more.
Proof.
  induction walk as [|[d f] rest IH]; intros n w.
  - exists []. simpl. now rewrite app_nil_r.
  - rewrite main_loop_cons. destruct (is_elixir f); [|apply IH].
    destruct (files w (join d f)) as [c|]; [|exists []; simpl;
      now rewrite app_nil_r].
    destruct (existsb is_start (readlines c)); [|apply IH].
    destruct (IH (S n) (write (join d f)
                (writelines (new_lines (pass (readlines c) init))) w))
      as [more E].
    rewrite E. simpl. rewrite <- app_assoc. eauto.
Qed.

End FinalMainFacts.

Section SmartMainFacts.
Import Smart.

Lemma smart_main_loop_cons (filepath : path) (rest : list path)
      (n : nat) (w : world) :
  main_loop (filepath :: rest) n w
  = match files w filepath with
    | None => (w, Raised)
    | Some c =>
        if contains TARGET c
        then main_loop rest (S n)
               (write filepath
                  (writelines (map transform_line (readlines c))) w)
        else main_loop rest n w
    end.
Proof.
  cbn [main_loop]. destruct (files w filepath) as [c|] eqn:Ef;
    [|reflexivity].
  now rewrite smart_process_file_eq, Ef.
Qed.

Lemma smart_main_loop_written_grows (found : list path) :
  forall n w, exists more,
  written (fst (main_loop found n w)) = written w ++ more.
Proof.
  induction found as [|p rest IH]; intros n w.
  - exists []. simpl. now rewrite app_nil_r.
  - rewrite smart_main_loop_cons.
    destruct (files w p) as [c|]; [|exists []; simpl;
      now rewrite app_nil_r].
    destruct (contains TARGET c); [|apply IH].
    destruct (IH (S n) (write p
                (writelines (map transform_line (readlines c))) w))
      as [more E].
    rewrite E. simpl. rewrite <- app_assoc. eauto.
Qed.

End SmartMainFacts.

(** X5.  Running the strict-prefix driver a second time over the same
    walk changes nothing: no file is written and the file system is the
    one the first run left. *)
Theorem X5_second_run_changes_nothing (walk : list (str * str))
        (w : world) :
  fst (Final.main walk (fst (Final.main walk w)))
  = fst (Final.main walk w) /\
  written (fst (Final.main walk (fst (Final.main walk w))))
  = written (fst (Final.main walk w)).
Proof.
  unfold Final.main. rewrite main_loop_idem. now split.
Qed.

(** X6.  The strict-prefix driver opens for writing only [.ex] and
    [.exs] files of the walk, under the path it joined for them. *)
Theorem X6_strict_writes_candidates_only (walk : list (str * str))
        (w : world) (p : path) :
  In p (written (fst (Final.main walk w))) ->
  In p (written w) \/
  exists d f, In (d, f) walk /\ Final.is_elixir f = true /\
              p = Final.join d f.
Proof.
  unfold Final.main. generalize 0 as n. revert w.
  induction walk as [|[d f] rest IH]; intros w n H; [now left|].
  assert (Hlift : forall n' w',
            In p (written (fst (Final.main_loop rest n' w'))) ->
            In p (written w') \/
            exists d0 f0, In (d0, f0) ((d, f) :: rest) /\
              Final.is_elixir f0 = true /\ p = Final.join d0 f0).
  { intros n' w' H'.
    destruct (IH w' n' H') as [Hw|(d0 & f0 & Hin & Hf0 & E)];
      [now left|right].
    exists d0, f0. split; [now right|now split]. }
  rewrite main_loop_cons in H.
  destruct (Final.is_elixir f) eqn:Hf; [|now apply Hlift in H].
  destruct (files w (Final.join d f)) as [c|]; [|now left].
  destruct (existsb Final.is_start (readlines c));
    [|now apply Hlift in H].
  apply Hlift in H as [H|H]; [|now right].
  apply written_write in H as [H|H]; [now left|right].
  exists d, f. split; [now left|now split].
Qed.

Lemma X6_strict_writes_candidates_only_witness :
  In Site.a_ex (written Site.tree) \/
  exists d f, In (d, f) Site.walk /\ Final.is_elixir f = true /\
              Site.a_ex = Final.join d f.
Proof.
  apply (@X6_strict_writes_candidates_only Site.walk Site.tree Site.a_ex).
  vm_compute. left. reflexivity.
Defined.

(** X7.  The contains-anywhere driver opens for writing only the paths
    its patterns yield. *)
Theorem X7_anywhere_writes_found_only (found : list path) (w : world)
        (p : path) :
  In p (written (fst (Smart.main found w))) ->
  In p (written w) \/ In p found.
Proof.
  unfold Smart.main. generalize 0 as n. revert w.
  induction found as [|q rest IH]; intros w n H; [now left|].
  assert (Hlift : forall n' w',
            In p (written (fst (Smart.main_loop rest n' w'))) ->
            In p (written w') \/ In p (q :: rest)).
  { intros n' w' H'. destruct (IH w' n' H') as [Hw|Hin];
      [now left|right; now right]. }
  rewrite smart_main_loop_cons in H.
  destruct (files w q) as [c|]; [|now left].
  destruct (contains TARGET c); [|now apply Hlift in H].
  apply Hlift in H as [H|H]; [|now right].
  apply written_write in H as [H|H]; [now left|right; now left].
Qed.

Lemma X7_anywhere_writes_found_only_witness :
  In Site.t_exs (written Site.tree) \/ In Site.t_exs Site.found.
Proof.
  apply (@X7_anywhere_writes_found_only Site.found Site.tree Site.t_exs).
  vm_compute. right. left. reflexivity.
Defined.

(** X8.  The number the strict-prefix driver reports is the number of
    files it wrote. *)
Theorem X8_strict_count_is_writes (walk : list (str * str)) (w : world)
        (k : nat) :
  snd (Final.main walk w) = Ok k ->
  length (written (fst (Final.main walk w))) = length (written w) + k.
Proof.
  unfold Final.main.
  assert (H : forall n w, snd (Final.main_loop walk n w) = Ok k ->
            length (written (fst (Final.main_loop walk n w))) + n
            = length (written w) + k).
  { clear w. induction walk as [|[d f] rest IH]; intros n w.
    - simpl. intros E. injection E as <-. reflexivity.
    - rewrite main_loop_cons.
      destruct (Final.is_elixir f); [|apply IH].
      destruct (files w (Final.join d f)) as [c|]; [|discriminate].
      destruct (existsb Final.is_start (readlines c)); [|apply IH].
      intros E. apply IH in E. simpl in E.
      rewrite length_app in E. simpl in E. lia. }
  intros E. specialize (H 0 w E). lia.
Qed.

Lemma X8_strict_count_is_writes_witness :
  length (written (fst (Final.main Site.walk Site.tree)))
  = length (written Site.tree) + 1.
Proof.
  apply (@X8_strict_count_is_writes Site.walk Site.tree 1).
  vm_compute. reflexivity.
Defined.

(** X9.  The number the contains-anywhere driver reports is the number
    of files it wrote. *)
Theorem X9_anywhere_count_is_writes (found : list path) (w : world)
        (k : nat) :
  snd (Smart.main found w) = Ok k ->
  length (written (fst (Smart.main found w))) = length (written w) + k.
Proof.
  unfold Smart.main.
  assert (H : forall n w, snd (Smart.main_loop found n w) = Ok k ->
            length (written (fst (Smart.main_loop found n w))) + n
            = length (written w) + k).
  { clear w. induction found as [|q rest IH]; intros n w.
    - simpl. intros E. injection E as <-. reflexivity.
    - rewrite smart_main_loop_cons.
      destruct (files w q) as [c|]; [|discriminate].
      destruct (contains TARGET c); [|apply IH].
      intros E. apply IH in E. simpl in E.
      rewrite length_app in E. simpl in E. lia. }
  intros E. specialize (H 0 w E). lia.
Qed.

Lemma X9_anywhere_count_is_writes_witness :
  length (written (fst (Smart.main Site.found Site.tree)))
  = length (written Site.tree) + 2.
Proof.
  apply (@X9_anywhere_count_is_writes Site.found Site.tree 2).
  vm_compute. reflexivity.
Defined.

Lemma main_loop_app (a b : list (str * str)) :
  forall n w,
  Final.main_loop (a ++ b) n w
  = match Final.main_loop a n w with
    | (w', Ok k) => Final.main_loop b k w'
    | (w', Raised) => (w', Raised)
    | (w', OutOfFuel) => (w', OutOfFuel)
    end.
Proof.
  induction a as [|[d f] a IH]; intros n w; [reflexivity|].
  change (((d, f) :: a) ++ b) with ((d, f) :: (a ++ b)).
  rewrite !main_loop_cons.
  destruct (Final.is_elixir f); [|apply IH].
  destruct (files w (Final.join d f)) as [c|]; [|reflexivity].
  destruct (existsb Final.is_start (readlines c)); apply IH.
Qed.

Lemma smart_main_loop_app (a b : list path) :
  forall n w,
  Smart.main_loop (a ++ b) n w
  = match Smart.main_loop a n w with
    | (w', Ok k) => Smart.main_loop b k w'
    | (w', Raised) => (w', Raised)
    | (w', OutOfFuel) => (w', OutOfFuel)
    end.
Proof.
  induction a as [|q a IH]; intros n w; [reflexivity|].
  change ((q :: a) ++ b) with (q :: (a ++ b)).
  rewrite !smart_main_loop_cons.
  destruct (files w q) as [c|]; [|reflexivity].
  destruct (contains TARGET c); apply IH.
Qed.

(** X10.  When the strict-prefix driver reaches an [.ex] or [.exs] file
    that cannot be opened for reading, it stops there with the
    exception: what it did to the files before stays, and the files
    after are neither read nor written. *)
Theorem X10_strict_stops_at_unreadable_file
        (before after : list (str * str)) (d f : str) (w : world)
        (k : nat) :
  snd (Final.main before w) = Ok k ->
  Final.is_elixir f = true ->
  files (fst (Final.main before w)) (Final.join d f) = None ->
  Final.main (before ++ (d, f) :: after) w
  = (fst (Final.main before w), Raised).
Proof.
  unfold Final.main. intros Hk Hf Hnone. rewrite main_loop_app.
  destruct (Final.main_loop before 0 w) as [w' r].
  cbn [fst snd] in *. subst r.
  now rewrite main_loop_cons, Hf, Hnone.
Qed.

Lemma X10_strict_stops_at_unreadable_file_witness :
  Final.main ([(lit "lib", lit "a.ex")]
              ++ (lit "lib", lit "gone.ex") :: [(lit "test", lit "t.exs")])
             Site.tree
  = (fst (Final.main [(lit "lib", lit "a.ex")] Site.tree), Raised).
Proof.
  apply (@X10_strict_stops_at_unreadable_file
           [(lit "lib", lit "a.ex")] [(lit "test", lit "t.exs")]
           (lit "lib") (lit "gone.ex") Site.tree 1);
    vm_compute; reflexivity.
Defined.

(** X11.  When the contains-anywhere driver reaches a path that cannot
    be opened for reading, it stops there with the exception: what it
    did to the files before stays, and the paths after are neither read
    nor written. *)
Theorem X11_anywhere_stops_at_unreadable_file
        (before after : list path) (p : path) (w : world) (k : nat) :
  snd (Smart.main before w) = Ok k ->
  files (fst (Smart.main before w)) p = None ->
  Smart.main (before ++ p :: after) w
  = (fst (Smart.main before w), Raised).
Proof.
  unfold Smart.main. intros Hk Hnone. rewrite smart_main_loop_app.
  destruct (Smart.main_loop before 0 w) as [w' r].
  cbn [fst snd] in *. subst r.
  now rewrite smart_main_loop_cons, Hnone.
Qed.

Lemma X11_anywhere_stops_at_unreadable_file_witness :
  Smart.main ([Site.a_ex] ++ Site.gone_ex :: [Site.t_exs]) Site.tree
  = (fst (Smart.main [Site.a_ex] Site.tree), Raised).
Proof.
  apply (@X11_anywhere_stops_at_unreadable_file
           [Site.a_ex] [Site.t_exs] Site.gone_ex Site.tree 1);
    vm_compute; reflexivity.
Defined.

(** X12.  When the strict-prefix driver completes, every [.ex] or [.exs]
    file of the walk that has a statement start has been written. *)
Theorem X12_strict_writes_every_match (walk : list (str * str))
        (w : world) (d f c : str) (k : nat) :
  In (d, f) walk -> Final.is_elixir f = true ->
  files w (Final.join d f) = Some c ->
  existsb Final.is_start (readlines c) = true ->
  snd (Final.main walk w) = Ok k ->
  In (Final.join d f) (written (fst (Final.main walk w))).
Proof.
  unfold Final.main. generalize 0 as n. revert w.
  induction walk as [|[d0 f0] rest IH]; intros w n Hin Hf Hp Hs Hok;
    [destruct Hin|].
  rewrite main_loop_cons in *.
  destruct Hin as [Hin|Hin].
  - injection Hin as -> ->. rewrite Hf, Hp, Hs in *.
    destruct (main_loop_written_grows rest (S n)
                (write (Final.join d f)
                   (writelines (Final.new_lines
                      (Final.pass (readlines c) Final.init))) w))
      as [more E].
    rewrite E. simpl. rewrite <- app_assoc. apply in_or_app. right.
    now left.
  - destruct (Final.is_elixir f0) eqn:Hf0; [|now apply IH].
    destruct (files w (Final.join d0 f0)) as [c0|] eqn:Ef;
      [|discriminate].
    destruct (existsb Final.is_start (readlines c0)); [|now apply IH].
    destruct (list_eq_dec N.eq_dec (Final.join d f) (Final.join d0 f0))
      as [Eq|Hne].
    + destruct (main_loop_written_grows rest (S n)
                  (write (Final.join d0 f0)
                     (writelines (Final.new_lines
                        (Final.pass (readlines c0) Final.init))) w))
        as [more E].
      rewrite E, Eq. simpl. rewrite <- app_assoc. apply in_or_app.
      right. now left.
    + apply IH; try assumption.
      rewrite files_write_other by exact Hne. exact Hp.
Qed.

Lemma X12_strict_writes_every_match_witness :
  In (Final.join (lit "lib") (lit "a.ex"))
     (written (fst (Final.main Site.walk Site.tree))).
Proof.
  apply (@X12_strict_writes_every_match
           Site.walk Site.tree (lit "lib") (lit "a.ex") Doc.plain 1).
  - left. reflexivity.
  - vm_compute. reflexivity.
  - reflexivity.
  - vm_compute. reflexivity.
  - vm_compute. reflexivity.
Defined.

(** X13.  When the contains-anywhere driver completes, every path it was
    given whose file contains the target text has been written. *)
Theorem X13_anywhere_writes_every_match (found : list path) (w : world)
        (p : path) (c : str) (k : nat) :
  In p found -> files w p = Some c -> contains TARGET c = true ->
  snd (Smart.main found w) = Ok k ->
  In p (written (fst (Smart.main found w))).
Proof.
  unfold Smart.main. generalize 0 as n. revert w.
  induction found as [|q rest IH]; intros w n Hin Hp Hc Hok;
    [destruct Hin|].
  rewrite smart_main_loop_cons in *.
  destruct (list_eq_dec N.eq_dec p q) as [->|Hne].
  - rewrite Hp, Hc in *.
    destruct (smart_main_loop_written_grows rest (S n)
                (write q (writelines
                   (map Smart.transform_line (readlines c))) w))
      as [more E].
    rewrite E. simpl. rewrite <- app_assoc. apply in_or_app. right.
    now left.
  - destruct Hin as [Hin|Hin]; [congruence|].
    destruct (files w q) as [c0|] eqn:Ef; [|discriminate].
    destruct (contains TARGET c0); [|now apply IH].
    apply IH; try assumption.
    rewrite files_write_other by exact Hne. exact Hp.
Qed.

Lemma X13_anywhere_writes_every_match_witness :
  In Site.t_exs (written (fst (Smart.main Site.found Site.tree))).
Proof.
  apply (@X13_anywhere_writes_every_match
           Site.found Site.tree Site.t_exs (Doc.branch ++ [LF]) 2).
  - right. left. reflexivity.
  - reflexivity.
  - vm_compute. reflexivity.
  - vm_compute. reflexivity.
Defined.

(** A candidate that cannot be opened stops the strict-prefix driver. *)
Example missing_file_raises :
  snd (Final.main [(lit "lib", lit "gone.ex")] Site.tree) = Raised /\
  files Site.tree Site.gone_ex = None.
Proof. split; vm_compute; reflexivity. Qed.

(* ------------------------------------------------------------------ *)
(** *** The detectors *)

Section StripFacts.

Lemma rstrip_app_spaces (x ws : str) :
  forallb isspace ws = true -> rstrip (x ++ ws) = rstrip x.
Proof.
  intros Hws. induction x as [|c t IH].
  - simpl. induction ws as [|d ws IHws]; [reflexivity|].
    simpl in Hws. apply andb_true_iff in Hws as [Hd Hws].
    simpl. now rewrite (IHws Hws), Hd.
  - simpl. now rewrite IH.
Qed.

Lemma rstrip_spaces_app (ws x : str) :
  forallb isspace ws = true ->
  rstrip (ws ++ x)
  = match rstrip x with
    | [] => []
    | _ :: _ => ws ++ rstrip x
    end.
Proof.
  intros Hws. induction ws as [|c ws IH]; simpl.
  - now destruct (rstrip x).
  - simpl in Hws. apply andb_true_iff in Hws as [Hc Hws].
    rewrite (IH Hws). destruct (rstrip x) as [|y r].
    + now rewrite Hc.
    + now destruct ws.
Qed.

(** Whitespace around a text does not change what [strip] leaves. *)
Lemma strip_padding (ws1 x ws2 : str) :
  forallb isspace ws1 = true -> forallb isspace ws2 = true ->
  strip (ws1 ++ x ++ ws2) = strip x.
Proof.
  intros H1 H2. unfold strip.
  rewrite app_assoc, (@rstrip_app_spaces _ ws2 H2).
  rewrite (@rstrip_spaces_app ws1 _ H1).
  destruct (rstrip x) as [|y r]; [reflexivity|].
  now apply lstrip_spaces_app.
Qed.

End StripFacts.

(** X14.  Whether a line is a statement start for the strict-prefix
    variant does not depend on its indentation or on whitespace at its
    end, the line terminator included. *)
Theorem X14_start_ignores_padding (ws1 l ws2 : str) :
  forallb isspace ws1 = true -> forallb isspace ws2 = true ->
  Final.is_start (ws1 ++ l ++ ws2) = Final.is_start l.
Proof.
  intros H1 H2. unfold Final.is_start. now rewrite strip_padding.
Qed.

Lemma X14_start_ignores_padding_witness :
  Final.is_start (lit "    " ++ lit "IO.puts(1)" ++ [32; LF]%N)
  = Final.is_start (lit "IO.puts(1)").
Proof.
  apply (@X14_start_ignores_padding
           (lit "    ") (lit "IO.puts(1)") [32; LF]%N); reflexivity.
Defined.

(** X15.  A statement start of the strict-prefix variant is a standalone
    call for the contains-anywhere variant too, and both comment it; they
    differ in where the marker goes: the first puts it in front of the
    indentation, the second after it. *)
Theorem X15_both_comment_a_start (l : str) :
  Final.is_start l = true ->
  contains TARGET l = true /\
  re_match Smart.STANDALONE l = true /\
  exists ws body,
    l = ws ++ body /\ forallb isspace ws = true /\ lstrip body = body /\
    Final.comment l = Smart.MARKER ++ ws ++ body /\
    Smart.transform_line l = ws ++ Smart.MARKER ++ body.
Proof.
  intros H. pose proof (@start_contains l H) as Hc.
  apply is_start_spec in H as (sp & rest & E & _).
  assert (Hs : re_match Smart.STANDALONE l = true).
  { rewrite standalone_match, E. apply startswith_app. }
  split; [exact Hc|]. split; [exact Hs|].
  destruct (lstrip_split l) as (ws & El & Hws).
  exists ws, (lstrip l).
  split; [exact El|]. split; [exact Hws|].
  split; [apply lstrip_fixed|]. split.
  - rewrite <- El. reflexivity.
  - unfold Smart.transform_line. rewrite Hc, Hs.
    rewrite El at 1. rewrite E.
    now apply standalone_sub.
Qed.

Lemma X15_both_comment_a_start_witness :
  contains TARGET Doc.hello = true /\
  re_match Smart.STANDALONE Doc.hello = true /\
  exists ws body,
    Doc.hello = ws ++ body /\ forallb isspace ws = true /\
    lstrip body = body /\
    Final.comment Doc.hello = Smart.MARKER ++ ws ++ body /\
    Smart.transform_line Doc.hello = ws ++ Smart.MARKER ++ body.
Proof.
  apply (@X15_both_comment_a_start Doc.hello). vm_compute. reflexivity.
Defined.

(* ------------------------------------------------------------------ *)
(** *** The substitution of embedded calls *)

Section CallFacts.
Import Smart.

Lemma contains_single (c : char) (s : str) :
  contains [c] s = false -> ~ In c s.
Proof.
  induction s as [|x t IH]; intros H; [intros []|].
  cbn [contains startswith] in H.
  apply orb_false_iff in H as [Hx Ht]. rewrite andb_true_r in Hx.
  apply N.eqb_neq in Hx. intros [E|E]; [congruence|now apply IH].
Qed.

Lemma not_in_forallb (c : char) (s : str) :
  ~ In c s -> forallb (fun x => negb (x =? c)%N) s = true.
Proof.
  induction s as [|x t IH]; intros H; [reflexivity|].
  cbn [forallb]. rewrite IH by (intros F; apply H; now right).
  destruct (N.eqb_spec x c) as [->|]; [|reflexivity].
  exfalso. apply H. now left.
Qed.

(** The call pattern matches only where the target text starts. *)
Lemma call_match_target (pos : nat) (s : str) :
  startswith TARGET s = false -> match_at CALL pos s = None.
Proof.
  intros H. unfold match_at, CALL. cbn [run]. now rewrite run_text, H.
Qed.

Lemma sub_no_target (repl : list piece) (s : str) :
  contains TARGET s = false ->
  forall pos, sub_from CALL repl pos 0 s = s.
Proof.
  induction s as [|c t IH]; intros H pos.
  - reflexivity.
  - cbn [contains] in H. apply orb_false_iff in H as [Hs Ht].
    cbn [sub_from]. rewrite (@call_match_target pos (c :: t) Hs).
    now rewrite (IH Ht).
Qed.

Lemma star_no_rparen (A : Type) (p : char -> bool)
      (k : nat -> str -> option A) (t : str) :
  (forall pos c s, c <> RPAREN -> k pos (c :: s) = None) ->
  (forall pos, k pos [] = None) ->
  ~ In RPAREN t -> forall pos, star p k pos t = None.
Proof.
  intros Hk Hnil. induction t as [|c t IH]; intros Hin pos.
  - apply Hnil.
  - assert (Hc : c <> RPAREN) by (intros ->; apply Hin; now left).
    cbn [star]. destruct (p c); [|now apply Hk].
    rewrite IH by (intros F; apply Hin; now right). now apply Hk.
Qed.

(** The call pattern needs a closing parenthesis. *)
Lemma call_needs_rparen (pos : nat) (s : str) :
  ~ In RPAREN s -> match_at CALL pos s = None.
Proof.
  intros Hin. destruct (startswith TARGET s) eqn:Hs;
    [|now apply call_match_target].
  unfold match_at, CALL. cbn [run]. rewrite run_text, Hs.
  apply startswith_split in Hs. change (length TARGET) with 7 in *.
  destruct (skipn 7 s) as [|c t] eqn:Et; [reflexivity|].
  destruct (LPAREN =? c)%N; [|reflexivity].
  apply star_no_rparen.
  - intros pos' c' s' Hc'. simpl.
    destruct (N.eqb_spec RPAREN c'); [congruence|reflexivity].
  - reflexivity.
  - intros F. apply Hin. rewrite Hs. apply in_or_app. right. now right.
Qed.

Lemma sub_no_rparen (repl : list piece) (s : str) :
  ~ In RPAREN s -> forall pos, sub_from CALL repl pos 0 s = s.
Proof.
  induction s as [|c t IH]; intros H pos.
  - reflexivity.
  - cbn [sub_from]. rewrite (@call_needs_rparen pos (c :: t) H).
    rewrite IH; [reflexivity|]. intros F. apply H. now right.
Qed.

End CallFacts.

(** X16.  Under the contains-anywhere policy a line that contains the
    target text, is no standalone call and has no closing parenthesis is
    commented whole: the marker goes between its indentation and the
    rest of the line. *)
Theorem X16_unclosed_call_is_commented (l : str) :
  contains TARGET l = true ->
  re_match Smart.STANDALONE l = false ->
  contains [RPAREN] l = false ->
  exists ws body,
    l = ws ++ body /\ forallb isspace ws = true /\ lstrip body = body /\
    Smart.transform_line l = ws ++ Smart.MARKER ++ body.
Proof.
  intros Hc Hs Hr.
  destruct (lstrip_split l) as (ws & El & Hws).
  exists ws, (lstrip l).
  split; [exact El|]. split; [exact Hws|].
  split; [apply lstrip_fixed|].
  assert (Hsub : re_sub Smart.CALL [Lit Smart.NOOP] l = l)
    by (unfold re_sub; apply sub_no_rparen; now apply contains_single).
  unfold Smart.transform_line. rewrite Hc, Hs. cbv zeta.
  rewrite Hsub, Hc. rewrite El at 1.
  apply indent_sub; [exact Hws|apply lstrip_fixed].
Qed.

Lemma X16_unclosed_call_is_commented_witness :
  exists ws body,
    lit "  x -> IO.puts(" ++ [LF] = ws ++ body /\
    forallb isspace ws = true /\ lstrip body = body /\
    Smart.transform_line (lit "  x -> IO.puts(" ++ [LF])
    = ws ++ Smart.MARKER ++ body.
Proof.
  apply (@X16_unclosed_call_is_commented (lit "  x -> IO.puts(" ++ [LF]));
    vm_compute; reflexivity.
Defined.

Section EmbeddedFacts.
Import Smart.

Lemma startswith_short (t v z : str) :
  startswith t (v ++ z) = true -> length t <= length v ->
  startswith t v = true.
Proof.
  revert v. induction t as [|x t IH]; intros v H Hlen; [reflexivity|].
  destruct v as [|y v]; [simpl in Hlen; lia|].
  simpl in *. apply andb_true_iff in H as [Hx Ht].
  rewrite Hx. apply IH; [exact Ht|lia].
Qed.

(** When the target text does not start inside [x], it does not start
    inside [x] either when a call follows. *)
Lemma no_start_before_call (x tail : str) :
  x <> [] -> contains TARGET (x ++ lit "IO.put") = false ->
  startswith TARGET (x ++ TARGET ++ tail) = false.
Proof.
  intros Hx H. destruct (startswith TARGET (x ++ TARGET ++ tail)) eqn:E;
    [|reflexivity].
  change (TARGET ++ tail) with (lit "IO.put" ++ 115%N :: tail) in E.
  rewrite app_assoc in E. apply startswith_short in E.
  - apply contains_starts in E. congruence.
  - rewrite length_app. change (length TARGET) with 7.
    change (length (lit "IO.put")) with 6.
    destruct x; [congruence|simpl; lia].
Qed.

Lemma contains_tail (sub s : str) (c : char) :
  contains sub (c :: s) = false -> contains sub s = false.
Proof.
  intros H. cbn [contains] in H. now apply orb_false_iff in H as [_ H].
Qed.

(** The substitution copies the text in front of the first call. *)
Lemma sub_before_call (repl : list piece) (pre tail : str) :
  contains TARGET (pre ++ lit "IO.put") = false ->
  forall pos, exists pos',
  sub_from CALL repl pos 0 (pre ++ TARGET ++ tail)
  = pre ++ sub_from CALL repl pos' 0 (TARGET ++ tail).
Proof.
  induction pre as [|c pre IH]; intros H pos.
  - now exists pos.
  - destruct (IH (contains_tail _ _ _ H) (S pos)) as [pos' E].
    exists pos'.
    change ((c :: pre) ++ TARGET ++ tail)
      with (c :: (pre ++ TARGET ++ tail)).
    cbn [sub_from]. rewrite call_match_target.
    + now rewrite E.
    + apply (@no_start_before_call (c :: pre) tail);
        [discriminate|exact H].
Qed.

(** A greedy star over a run of matching characters that ends at a
    character it cannot take. *)
Lemma star_run (A : Type) (p : char -> bool)
      (k : nat -> str -> option A) (run_ : str) (c : char) (t : str)
      (a : A) :
  forallb p run_ = true -> p c = false ->
  forall pos,
  k (length run_ + pos) (c :: t) = Some a ->
  star p k pos (run_ ++ c :: t) = Some a.
Proof.
  intros Hrun Hc. induction run_ as [|x r IH]; intros pos Hk.
  - simpl. now rewrite Hc.
  - simpl in Hrun. apply andb_true_iff in Hrun as [Hx Hr].
    simpl. rewrite Hx. rewrite (IH Hr (S pos)); [reflexivity|].
    simpl in Hk. now rewrite Nat.add_succ_r.
Qed.

(** The match of the call pattern on a call whose argument list has no
    closing parenthesis of its own. *)
Lemma call_match (pos : nat) (args post : str) :
  ~ In RPAREN args ->
  match_at CALL pos (TARGET ++ LPAREN :: args ++ RPAREN :: post)
  = Some (S (8 + length args), []).
Proof.
  intros Hargs. unfold match_at, CALL. cbn [run].
  rewrite run_text, startswith_app.
  change (skipn (length TARGET) (TARGET ++ LPAREN :: args ++ RPAREN :: post))
    with (LPAREN :: args ++ RPAREN :: post).
  cbv beta iota. rewrite N.eqb_refl.
  erewrite star_run.
  - reflexivity.
  - now apply not_in_forallb.
  - reflexivity.
  - cbv beta iota. rewrite N.eqb_refl. f_equal. f_equal.
    change (length TARGET) with 7. lia.
Qed.

Lemma sub_from_skip (r : regex) (repl : list piece) (a b : str) :
  forall pos, exists pos',
  sub_from r repl pos (length a) (a ++ b) = sub_from r repl pos' 0 b.
Proof.
  induction a as [|c a IH]; intros pos.
  - now exists pos.
  - destruct (IH (S pos)) as [pos' E]. exists pos'. exact E.
Qed.

(** The substitution on a line with one call. *)
Lemma sub_one_call (pre args post : str) :
  contains TARGET (pre ++ lit "IO.put") = false ->
  ~ In RPAREN args -> contains TARGET post = false ->
  re_sub CALL [Lit NOOP]
         (pre ++ TARGET ++ LPAREN :: args ++ RPAREN :: post)
  = pre ++ NOOP ++ post.
Proof.
  intros Hpre Hargs Hpost. unfold re_sub.
  destruct (@sub_before_call [Lit NOOP] pre
              (LPAREN :: args ++ RPAREN :: post) Hpre 0) as [pos1 E1].
  rewrite E1. f_equal.
  change (TARGET ++ LPAREN :: args ++ RPAREN :: post)
    with (73%N :: (lit "O.puts(" ++ args ++ RPAREN :: post)).
  cbn [sub_from].
  change (73%N :: (lit "O.puts(" ++ args ++ RPAREN :: post))
    with (TARGET ++ LPAREN :: args ++ RPAREN :: post).
  rewrite (@call_match pos1 args post Hargs).
  destruct (@sub_from_skip CALL [Lit NOOP]
              (lit "O.puts(" ++ args ++ [RPAREN]) post (S pos1))
    as [pos2 E2].
  replace (lit "O.puts(" ++ args ++ RPAREN :: post)
    with ((lit "O.puts(" ++ args ++ [RPAREN]) ++ post)
    by (rewrite <- !app_assoc; reflexivity).
  replace (8 + length args)
    with (length (lit "O.puts(" ++ args ++ [RPAREN]))
    by (rewrite !length_app; simpl; lia).
  rewrite E2, sub_no_target by exact Hpost.
  reflexivity.
Qed.

(** The placeholder brings no occurrence of the target text. *)
Lemma noop_no_target (pre post : str) :
  contains TARGET (pre ++ lit "IO.put") = false ->
  contains TARGET post = false ->
  contains TARGET (pre ++ NOOP ++ post) = false.
Proof.
  intros Hpre Hpost. induction pre as [|c pre IH].
  - simpl. simpl in Hpost. exact Hpost.
  - change ((c :: pre) ++ NOOP ++ post) with (c :: (pre ++ NOOP ++ post)).
    cbn [contains]. rewrite (IH (contains_tail _ _ _ Hpre)), orb_false_r.
    destruct (startswith TARGET (c :: pre ++ NOOP ++ post)) eqn:E;
      [|reflexivity].
    exfalso. apply startswith_split in E.
    change (c :: pre ++ NOOP ++ post)
      with ((c :: pre) ++ NOOP ++ post) in E.
    apply app_eq_app in E as [m [[E1 E2]|[E1 E2]]].
    + assert (F : startswith TARGET ((c :: pre) ++ lit "IO.put") = true)
        by (rewrite E1, <- app_assoc; apply startswith_app).
      apply contains_starts in F. congruence.
    + destruct m as [|x m].
      * rewrite app_nil_r in E1.
        assert (F : startswith TARGET ((c :: pre) ++ lit "IO.put") = true)
          by (rewrite <- E1; apply startswith_app).
        apply contains_starts in F. congruence.
      * injection E2 as Ex _. subst x.
        assert (F : In 58%N TARGET)
          by (rewrite E1; apply in_or_app; right; now left).
        vm_compute in F. intuition discriminate.
Qed.

End EmbeddedFacts.

Lemma lstrip_nonnil (s : str) :
  forallb isspace s = false -> lstrip s <> [].
Proof.
  induction s as [|c t IH]; simpl; [discriminate|].
  destruct (isspace c); [exact IH|discriminate].
Qed.

Lemma contains_drop_prefix (sub a b : str) :
  contains sub (a ++ b) = false -> contains sub b = false.
Proof.
  intros H. destruct (contains sub b) eqn:E; [|reflexivity].
  now rewrite (contains_app_r _ a _ E) in H.
Qed.

(** X17.  Under the contains-anywhere policy, a call embedded in a line
    is replaced by the placeholder and the rest of the line is kept:
    when the text in front of the call is not only whitespace and the
    target text does not start in it, the arguments have no closing
    parenthesis of their own and the text after the call is free of the
    target text. *)
Theorem X17_embedded_call_is_replaced (pre args post : str) :
  forallb isspace pre = false ->
  contains TARGET (pre ++ lit "IO.put") = false ->
  contains [RPAREN] args = false ->
  contains TARGET post = false ->
  Smart.transform_line (pre ++ TARGET ++ LPAREN :: args ++ RPAREN :: post)
  = pre ++ Smart.NOOP ++ post.
Proof.
  intros Hsp Hpre Hargs Hpost.
  apply contains_single in Hargs.
  unfold Smart.transform_line.
  replace (contains TARGET
             (pre ++ TARGET ++ LPAREN :: args ++ RPAREN :: post))
    with true
    by (symmetry; apply contains_app_r, contains_starts, startswith_app).
  replace (re_match Smart.STANDALONE
             (pre ++ TARGET ++ LPAREN :: args ++ RPAREN :: post))
    with false.
  - cbv zeta. rewrite sub_one_call by assumption.
    now rewrite noop_no_target.
  - symmetry. rewrite standalone_match.
    rewrite lstrip_app_nonnil by now apply lstrip_nonnil.
    apply no_start_before_call; [now apply lstrip_nonnil|].
    destruct (lstrip_split pre) as (ws & E & _).
    rewrite E, <- app_assoc in Hpre.
    exact (contains_drop_prefix _ _ _ Hpre).
Qed.

Lemma X17_embedded_call_is_replaced_witness :
  Smart.transform_line
    (lit "  _ -> " ++ TARGET ++ LPAREN :: lit "a, b" ++ RPAREN
                                          :: lit " # end" ++ [LF])
  = lit "  _ -> " ++ Smart.NOOP ++ lit " # end" ++ [LF].
Proof.
  apply (@X17_embedded_call_is_replaced
           (lit "  _ -> ") (lit "a, b") (lit " # end" ++ [LF]));
    vm_compute; reflexivity.
Defined.

Section LengthFacts.
Import Smart.

Lemma star_sound (A : Type) (p : char -> bool)
      (k : nat -> str -> option A) (s : str) (a : A) :
  forall pos, star p k pos s = Some a ->
  exists j, j <= length s /\ k (j + pos) (skipn j s) = Some a.
Proof.
  induction s as [|c t IH]; intros pos H.
  - exists 0. split; [lia|exact H].
  - cbn [star] in H. destruct (p c).
    + destruct (star p k (S pos) t) as [a'|] eqn:E.
      * injection H as ->. destruct (IH _ E) as (j & Hj & Hk).
        exists (S j). split; [simpl; lia|].
        simpl. now rewrite Nat.add_succ_r in Hk.
      * exists 0. split; [lia|exact H].
    + exists 0. split; [lia|exact H].
Qed.

(** A match of the call pattern is at least [IO.puts()] and lies within
    the subject. *)
Lemma call_match_length (pos n : nat) (s : str) (g : list str) :
  match_at CALL pos s = Some (n, g) -> 9 <= n /\ n <= length s.
Proof.
  unfold match_at, CALL. cbn [run]. rewrite run_text.
  destruct (startswith TARGET s) eqn:Hs; [|discriminate].
  apply startswith_split in Hs. change (length TARGET) with 7 in *.
  intros H. destruct (skipn 7 s) as [|c t] eqn:Et; [discriminate|].
  destruct (LPAREN =? c)%N; [|discriminate].
  apply star_sound in H as (j & Hj & H).
  destruct (skipn j t) as [|c' t'] eqn:Ej; [discriminate|].
  destruct (RPAREN =? c')%N; [|discriminate].
  injection H as <- _.
  assert (Hlt : j < length t).
  { destruct (Nat.lt_ge_cases j (length t)) as [Hlt|Hge]; [exact Hlt|].
    rewrite skipn_all2 in Ej by exact Hge. discriminate. }
  rewrite Hs, length_app. change (length TARGET) with 7.
  cbn [length]. destruct pos; lia.
Qed.

(** Every replacement shortens the line by six characters or more. *)
Lemma sub_call_length (s : str) :
  forall pos skip, skip <= length s ->
  length (sub_from CALL [Lit NOOP] pos skip s) + skip = length s \/
  length (sub_from CALL [Lit NOOP] pos skip s) + skip + 6 <= length s.
Proof.
  induction s as [|c t IH]; intros pos skip Hskip.
  - simpl in Hskip. assert (skip = 0) by lia. subst. now left.
  - destruct skip as [|k].
    + cbn [sub_from].
      destruct (match_at CALL pos (c :: t)) as [[[|n] g]|] eqn:Em.
      * apply call_match_length in Em. lia.
      * apply call_match_length in Em. simpl in Em.
        destruct (IH (S pos) n ltac:(lia)) as [H|H]; right;
          rewrite length_app; simpl; lia.
      * destruct (IH (S pos) 0 ltac:(lia)) as [H|H]; simpl; lia.
    + cbn [sub_from]. simpl in Hskip.
      destruct (IH (S pos) k ltac:(lia)) as [H|H]; simpl; lia.
Qed.

End LengthFacts.

(** X18.  The contains-anywhere variant changes a line exactly when the
    line contains the target text. *)
Theorem X18_target_line_always_changes (l : str) :
  Smart.transform_line l = l <-> contains TARGET l = false.
Proof.
  split; [|apply transform_line_plain].
  intros H. destruct (contains TARGET l) eqn:Hc; [exfalso|reflexivity].
  unfold Smart.transform_line in H. rewrite Hc in H.
  destruct (re_match Smart.STANDALONE l) eqn:Hs.
  - rewrite standalone_match in Hs. apply startswith_split in Hs.
    destruct (lstrip_split l) as (ws & E & Hws). rewrite Hs in E.
    remember (skipn (length TARGET) (lstrip l)) as rest eqn:Er.
    clear Er Hs Hc. subst l.
    rewrite standalone_sub in H by exact Hws.
    apply (f_equal (@length char)) in H.
    rewrite !length_app in H. simpl in H. lia.
  - cbv zeta in H.
    destruct (contains TARGET (re_sub Smart.CALL [Lit Smart.NOOP] l))
      eqn:Hc'.
    + destruct (lstrip_split (re_sub Smart.CALL [Lit Smart.NOOP] l))
        as (ws & E & Hws).
      rewrite E in H at 1.
      rewrite indent_sub in H; [|exact Hws|apply lstrip_fixed].
      apply (f_equal (@length char)) in H.
      pose proof (f_equal (@length char) E) as El.
      rewrite !length_app in H. rewrite length_app in El.
      unfold re_sub in *.
      destruct (@sub_call_length l 0 0 (Nat.le_0_l _)) as [Hl|Hl];
        simpl in H; lia.
    + congruence.
Qed.

(** X19.  When the strict-prefix driver completes, no [.ex] or [.exs]
    file of the walk has a statement start left in it. *)
Theorem X19_strict_leaves_no_start (walk : list (str * str)) (w : world)
        (d f c : str) (k : nat) :
  snd (Final.main walk w) = Ok k ->
  In (d, f) walk -> Final.is_elixir f = true ->
  files (fst (Final.main walk w)) (Final.join d f) = Some c ->
  existsb Final.is_start (readlines c) = false.
Proof.
  unfold Final.main. generalize 0 as n. revert w.
  induction walk as [|[d0 f0] rest IH]; intros w n Hok Hin Hf Hc;
    [destruct Hin|].
  rewrite main_loop_cons in *.
  destruct Hin as [Hin|Hin].
  - injection Hin as -> ->. rewrite Hf in *.
    destruct (files w (Final.join d f)) as [c0|] eqn:Ef; [|discriminate].
    destruct (existsb Final.is_start (readlines c0)) eqn:Es.
    + rewrite (@main_loop_stable (Final.join d f) _ rest
                 (output_has_no_start c0)) in Hc
        by apply files_write_same.
      injection Hc as <-. apply output_has_no_start.
    + rewrite (@main_loop_stable (Final.join d f) c0 rest Es n w Ef)
        in Hc.
      now injection Hc as <-.
  - destruct (Final.is_elixir f0); [|now apply (IH w n)].
    destruct (files w (Final.join d0 f0)) as [c0|]; [|discriminate].
    destruct (existsb Final.is_start (readlines c0));
      [|now apply (IH w n)].
    eapply IH; eassumption.
Qed.

Lemma X19_strict_leaves_no_start_witness :
  existsb Final.is_start (readlines Doc.plain_once) = false.
Proof.
  apply (@X19_strict_leaves_no_start
           Site.walk Site.tree (lit "lib") (lit "a.ex") Doc.plain_once 1).
  - vm_compute. reflexivity.
  - left. reflexivity.
  - vm_compute. reflexivity.
  - vm_compute. reflexivity.
Defined.
